(** * apimock: request-to-mock-file resolution and response synthesis

    A shallow embedding of the apimock server (package [main], the file with
    [findBestMockFile], [replacePathParams] and [mockHandler]) and the
    properties of its routing, templating and response pipeline.

    Go strings are byte strings: they are modelled by [string], whose
    characters are the 8-bit [ascii].  The functions of the Go standard
    library that the program calls are modelled in modules named after their
    packages ([str] for package strings, [filepath], [strconv], [regexp],
    [json]); the definitions of the program itself keep their Go names. *)

From Stdlib Require Import ZArith Strings.String Strings.Ascii List Lia.
From stdpp Require Import gmap strings list.

(** ** Package strings *)

Module str.

(** [s[lo:hi]] *)
Definition slice (s : string) (lo hi : nat) : string :=
  String.substring lo (hi - lo) s.

(** [len(s) >= len(prefix) && s[:len(prefix)] == prefix] *)
Definition HasPrefix (s prefix : string) : bool :=
  (String.length prefix <=? String.length s)%nat
  && String.eqb (slice s 0 (String.length prefix)) prefix.

Definition TrimPrefix (s prefix : string) : string :=
  if HasPrefix s prefix
  then slice s (String.length prefix) (String.length s)
  else s.

(** [len(s) >= len(suffix) && s[len(s)-len(suffix):] == suffix] *)
Definition HasSuffix (s suffix : string) : bool :=
  (String.length suffix <=? String.length s)%nat
  && String.eqb
       (slice s (String.length s - String.length suffix) (String.length s))
       suffix.

Definition TrimSuffix (s suffix : string) : string :=
  if HasSuffix s suffix
  then slice s 0 (String.length s - String.length suffix)
  else s.

(** [strings.Split(s, sep)] for a separator of one byte, the only kind
    the program uses (["/"]).  The empty string splits into one empty
    piece. *)
Fixpoint Split (s : string) (sep : ascii) : list string :=
  match s with
  | EmptyString => [EmptyString]
  | String c s' =>
      if Ascii.eqb c sep then EmptyString :: Split s' sep
      else match Split s' sep with
           | [] => [String c EmptyString]
           | x :: xs => String c x :: xs
           end
  end.

(** [strings.Join(elems, sep)] *)
Definition Join (elems : list string) (sep : string) : string :=
  String.concat sep elems.

End str.

(** ** The Path Matcher: one candidate against the request *)

(** The wildcard marker of a route template. *)
Definition wildcard : string := "_".

(** The loop of [findBestMockFile] over [mockParts] (the source's
    [for i := range mockParts]), run after the two lengths were found
    equal, so that [requestParts[i]] is read in step with [mockParts[i]].
    The result is the triple [(match, params, underscoreCount)] as the loop
    leaves it; a [break] returns the variables as they are. *)
Fixpoint matchLoop (mockParts requestParts : list string)
    (params : list string) (underscoreCount : nat)
    : bool * list string * nat :=
  match mockParts, requestParts with
  | m :: mockParts', r :: requestParts' =>
      if String.eqb m wildcard then
        if String.eqb r EmptyString then (false, params, underscoreCount)
        else matchLoop mockParts' requestParts'
               (params ++ [r]) (S underscoreCount)
      else if negb (String.eqb m r) then (false, params, underscoreCount)
      else matchLoop mockParts' requestParts' params underscoreCount
  | _, _ => (true, params, underscoreCount)
  end.

(** The length test and the loop: [Some (params, underscoreCount)] when the
    candidate matches, [None] when the closure returns without a match. *)
Definition matchParts (mockParts requestParts : list string)
    : option (list string * nat) :=
  if negb (length mockParts =? length requestParts)%nat then None
  else
    match matchLoop mockParts requestParts [] 0 with
    | (true, params, underscoreCount) => Some (params, underscoreCount)
    | (false, _, _) => None
    end.

(** *** The matching rule as the specification words it *)

(** A template segment accepts a request segment: the wildcard accepts any
    non-empty segment, a literal accepts exactly itself. *)
Definition segAccepts (m r : string) : Prop :=
  if decide (m = wildcard) then r ≠ EmptyString else m = r.

(** The request segments aligned with wildcards, in template order. *)
Fixpoint captured (mockParts requestParts : list string) : list string :=
  match mockParts, requestParts with
  | m :: ms, r :: rs =>
      if decide (m = wildcard) then r :: captured ms rs else captured ms rs
  | _, _ => []
  end.

(** Number of wildcard segments of a template. *)
Definition wildcards (mockParts : list string) : nat :=
  length (filter (λ m, m = wildcard) mockParts).

(** Specificity score of a template: segments minus wildcards. *)
Definition specificity (mockParts : list string) : Z :=
  Z.of_nat (length mockParts) - Z.of_nat (wildcards mockParts).


(** ** Errors *)

(** Go's [error] values as far as the program meets them: the two sentinel
    values of the directory walk and the errors of the operating system
    (an [*fs.PathError] from [Lstat], [ReadDir] or [Open]), which carry a
    message.  [None : option error] is Go's [nil]. *)
Inductive error :=
| SkipDir
| SkipAll
| PathError (msg : string).

Global Instance error_eq_dec : EqDecision error.
Proof. solve_decision. Defined.

(** ** The Mock Store on disk *)

(** A directory entry as [os.ReadDir] and [os.Lstat] report it.  A [File]
    is any entry that is not a directory.  A [Dir] carries what [ReadDir]
    returns for it: the entries read, in the order [ReadDir] yields them
    (sorted by file name), and the error, if any. *)
#[warnings="-register-all"]
Inductive Node :=
| File (name : string)
| Dir (name : string) (readErr : option string) (entries : list Node).

Definition Name (d : Node) : string :=
  match d with File n => n | Dir n _ _ => n end.

Definition IsDir (d : Node) : bool :=
  match d with File _ => false | Dir _ _ _ => true end.

(** What [os.Lstat] finds at the root of a walk. *)
Inductive FS :=
| LstatError (msg : string)
| Root (d : Node).

(** ** Package path/filepath (Unix) *)

Module filepath.

Definition Separator : ascii := "/"%char.

Definition rooted (path : string) : bool :=
  match path with
  | String c _ => Ascii.eqb c Separator
  | EmptyString => false
  end.

(** One path element met by [Clean]; [out] holds the elements kept so far,
    the last one first.  Empty elements and ["."] are dropped; [".."]
    removes the element before it, unless there is none (dropped in a rooted
    path, kept in a relative one) or it is itself a kept [".."]. *)
Definition cleanStep (isRooted : bool) (out : list string) (elem : string)
    : list string :=
  if decide (elem = EmptyString ∨ elem = ".") then out
  else if decide (elem = "..") then
    match out with
    | top :: out' => if decide (top = "..") then elem :: out else out'
    | [] => if isRooted then [] else [elem]
    end
  else elem :: out.

(** [filepath.Clean]: the shortest path name equivalent to [path] by purely
    lexical processing (rules 1 to 4 of its documentation).  The result ends
    in a slash only if it is the root, and is ["."] where it would be
    empty. *)
Definition Clean (path : string) : string :=
  let out := foldl (cleanStep (rooted path)) [] (str.Split path Separator) in
  let s := (if rooted path then "/" else EmptyString)
           +:+ str.Join (rev out) "/" in
  if decide (s = EmptyString) then "." else s.

(** [filepath.Join]: the leading empty elements are ignored, the others are
    joined with the separator and the result is cleaned; no non-empty
    element gives the empty string. *)
Fixpoint Join (elem : list string) : string :=
  match elem with
  | [] => EmptyString
  | e :: elem' =>
      if decide (e = EmptyString) then Join elem'
      else Clean (str.Join elem "/")
  end.

(** The elements that the scanning loop of [Rel] reads from a cleaned
    path: it stops where nothing is left to read, so the empty string has
    no element and a final separator (the root ["/"]) opens none. *)
Definition elements (s : string) : list string :=
  if decide (s = EmptyString) then []
  else
    let l := str.Split s Separator in
    if decide (last l = Some EmptyString) then removelast l else l.

(** The loop of [Rel] that positions both paths at their first differing
    elements: the elements left of each, and whether the loop ended on a
    difference ([break]) rather than at the end of a path. *)
Fixpoint differ (base targ : list string)
    : list string * list string * bool :=
  match base, targ with
  | b :: base', t :: targ' =>
      if decide (t = b) then differ base' targ' else (base, targ, true)
  | _, _ => (base, targ, false)
  end.

(** [filepath.Rel]: a relative path that is lexically equivalent to
    [targpath] when joined to [basepath], or an error when [targpath]
    cannot be made relative to [basepath].  On Unix there is no volume name
    and [sameWord] is equality. *)
Definition Rel (basepath targpath : string) : string * option error :=
  let failure :=
    (EmptyString,
     Some (PathError ("Rel: can't make " +:+ targpath +:+ " relative to "
                      +:+ basepath))) in
  let base := Clean basepath in
  let targ := Clean targpath in
  if decide (targ = base) then (".", None)
  else
    let base := if decide (base = ".") then EmptyString else base in
    if negb (eqb (rooted base) (rooted targ)) then failure
    else
      let '(bleft, tleft, broke) := differ (elements base) (elements targ) in
      if broke && bool_decide (head bleft = Some "..") then failure
      else
        match bleft with
        | _ :: _ =>
            (* Base elements left.  Must go up before going down. *)
            (str.Join (replicate (length bleft) ".." ++ tleft) "/", None)
        | [] => (str.Join tleft "/", None)
        end.

(** [filepath.WalkDir] calls [fn] with the state threaded through the
    calls (the variables the Go closure captures), the path, the entry
    ([None] is Go's [nil]) and the error of the walk, if any. *)
Definition WalkDirFunc (S : Type) : Type :=
  S → string → option Node → option error → S * option error.

(** The unexported [walkDir]: [fn] is called for the entry; a directory is
    then read, a failure of [ReadDir] is reported by a second call of [fn]
    for the directory, and the entries are walked in order.  An error
    returned by [fn] ends the walk, except that [SkipDir] only leaves the
    directory at hand. *)
Fixpoint walkDir {S : Type} (fn : WalkDirFunc S) (path : string) (d : Node)
    (st : S) {struct d} : S * option error :=
  match fn st path (Some d) None with
  | (st, Some err) =>
      if bool_decide (err = SkipDir) && IsDir d then (st, None)
      else (st, Some err)
  | (st, None) =>
      match d with
      | File _ => (st, None)
      | Dir _ readErr dirs =>
          let walkEntries :=
            fix walkEntries (ds : list Node) (st : S) : S * option error :=
              match ds with
              | [] => (st, None)
              | d1 :: ds' =>
                  match walkDir fn (Join [path; Name d1]) d1 st with
                  | (st, Some err) =>
                      if decide (err = SkipDir) then (st, None)
                      else (st, Some err)
                  | (st, None) => walkEntries ds' st
                  end
              end in
          match readErr with
          | Some msg =>
              (* Second call, to report ReadDir error. *)
              match fn st path (Some d) (Some (PathError msg)) with
              | (st, Some err) =>
                  if bool_decide (err = SkipDir) && IsDir d then (st, None)
                  else (st, Some err)
              | (st, None) => walkEntries dirs st
              end
          | None => walkEntries dirs st
          end
      end
  end.

(** [filepath.WalkDir] *)
Definition WalkDir {S : Type} (fs : FS) (root : string) (fn : WalkDirFunc S)
    (st : S) : S * option error :=
  let '(st, err) :=
    match fs with
    | LstatError msg => fn st root None (Some (PathError msg))
    | Root d => walkDir fn root d st
    end in
  if decide (err = Some SkipDir ∨ err = Some SkipAll) then (st, None)
  else (st, err).

End filepath.

(** ** The Path Matcher: [findBestMockFile] *)

(** The variables that the closure of [findBestMockFile] updates. *)
Record Best := mkBest {
  bestMatch : string;
  bestParams : list string;
  bestScore : Z
}.

(** Lines 256 to 262 of the closure: the route template of a file whose
    path ends in [.json]. *)
Definition mockPartsOf (baseDir path : string) : list string :=
  (* Handle index.json *)
  let rel := str.TrimSuffix path ".json" in
  let rel := if str.HasSuffix rel "/index"
             then str.TrimSuffix rel "/index" else rel in
  let rel := fst (filepath.Rel baseDir rel) in
  str.Split rel "/".

(** The closure passed to [filepath.WalkDir]. *)
Definition walkFn (baseDir : string) (requestParts : list string)
    (st : Best) (path : string) (d : option Node) (err : option error)
    : Best * option error :=
    match err, d with
    | Some _, _ => (st, err)
    | None, None => (st, None) (* d.IsDir() on nil: WalkDir never calls so *)
    | None, Some d =>
        if IsDir d then (st, None)
        else if negb (str.HasSuffix path ".json") then (st, None)
        else
          let mockParts := mockPartsOf baseDir path in
          match matchParts mockParts requestParts with
          | None => (st, None)
          | Some (params, underscoreCount) =>
              (* Fewer _ means higher score *)
              let score :=
                (Z.of_nat (length requestParts) - Z.of_nat underscoreCount)%Z
              in
              if (bestScore st <? score)%Z
              then (mkBest path params score, None)
              else (st, None)
          end
    end.

(** What [findBestMockFile] writes to the log. *)
Definition walkLog (err : option error) : list string :=
  match err with
  | Some (PathError msg) => ["Walk error: " +:+ msg]
  | Some SkipDir => ["Walk error: skip this directory"]
  | Some SkipAll => ["Walk error: skip everything and stop the walk"]
  | None => []
  end.

(** Find the best mock file (supports wildcards): the file found (the empty
    string for none), the captured path parameters and the lines logged. *)
Definition findBestMockFile (fs : FS) (baseDir requestPath : string)
    : string * list string * list string :=
  let requestParts := str.Split requestPath "/" in
  let '(st, err) :=
    filepath.WalkDir fs baseDir (walkFn baseDir requestParts)
      (mkBest EmptyString [] (-1)) in
  (bestMatch st, bestParams st, walkLog err).

(** ** The scan, flattened *)

(** What a walk meets, in traversal order: a file, or a directory that
    cannot be read (for the root, an [Lstat] that fails). *)
Inductive Item :=
| Met (path : string)
| Failed (msg : string).

(** The complete pre-order traversal below [path]: every file, and every
    failure of [ReadDir] at the place of its directory, none of them
    ending the traversal. *)
Fixpoint traversal (path : string) (d : Node) : list Item :=
  match d with
  | File _ => [Met path]
  | Dir _ readErr dirs =>
      match readErr with Some msg => [Failed msg] | None => [] end
      ++ (fix below (ds : list Node) : list Item :=
            match ds with
            | [] => []
            | d1 :: ds' =>
                traversal (filepath.Join [path; Name d1]) d1 ++ below ds'
            end) dirs
  end.

Definition traversalFS (fs : FS) (root : string) : list Item :=
  match fs with
  | LstatError msg => [Failed msg]
  | Root d => traversal root d
  end.

(** The files that come before the first failure, and that failure. *)
Fixpoint upToError (items : list Item) : list string * option string :=
  match items with
  | [] => ([], None)
  | Met p :: items' =>
      let '(files, err) := upToError items' in (p :: files, err)
  | Failed msg :: _ => ([], Some msg)
  end.

(** The same tree with every unreadable directory taken for an empty,
    readable one: what is left when each failure short-circuits only its
    own subtree. *)
Fixpoint prune (d : Node) : Node :=
  match d with
  | File n => File n
  | Dir n (Some _) _ => Dir n None []
  | Dir n None dirs => Dir n None (map prune dirs)
  end.

Definition pruneFS (fs : FS) : FS :=
  match fs with
  | LstatError msg => LstatError msg
  | Root d => Root (prune d)
  end.

(** A candidate file against the request: the captured parameters and the
    score that the closure computes for it, when its path ends in [.json]
    and its template matches. *)
Definition candidate (baseDir : string) (requestParts : list string)
    (path : string) : option (list string * Z) :=
  if str.HasSuffix path ".json" then
    match matchParts (mockPartsOf baseDir path) requestParts with
    | Some (params, underscoreCount) =>
        Some (params,
              (Z.of_nat (length requestParts) - Z.of_nat underscoreCount)%Z)
    | None => None
    end
  else None.

(** The closure on one file: the best match is replaced by a candidate of
    strictly higher score. *)
Definition consider (baseDir : string) (requestParts : list string)
    (st : Best) (path : string) : Best :=
  match candidate baseDir requestParts path with
  | Some (params, score) =>
      if (bestScore st <? score)%Z then mkBest path params score else st
  | None => st
  end.

Definition noBest : Best := mkBest EmptyString [] (-1).

(** A file is a candidate for the request, with the parameters it captures:
    its path ends in [.json] and its route template matches. *)
Definition isCandidate (baseDir : string) (requestParts : list string)
    (path : string) (params : list string) : Prop :=
  str.HasSuffix path ".json" = true
  ∧ fst <$> matchParts (mockPartsOf baseDir path) requestParts = Some params.

(** The files that the scan of [findBestMockFile] meets, in traversal
    order. *)
Definition scanned (fs : FS) (baseDir : string) : list string :=
  fst (upToError (traversalFS fs baseDir)).

(** A Mock Store whose directory [a] cannot be read, next to a mock file
    [b.json]. *)
Definition storeWithUnreadableDir : FS :=
  Root (Dir "mock" None
          [Dir "a" (Some "open mock/a: permission denied") [];
           File "b.json"]).

(** A Mock Store in which the unreadable directory [a] stands, in
    traversal order, between the mock files [_.json] and [b.json]. *)
Definition storeWithHiddenFile : FS :=
  Root (Dir "mock" None
          [File "_.json";
           Dir "a" (Some "open mock/a: permission denied") [];
           File "b.json"]).

(** ** Route templates as the specification derives them *)

(** [s] holds the byte [c]. *)
Fixpoint contains (c : ascii) (s : string) : bool :=
  match s with
  | EmptyString => false
  | String a s' => Ascii.eqb a c || contains c s'
  end.

(** The name of a directory entry: not empty, without a separator, and
    neither of the two special names. *)
Definition entryName (n : string) : Prop :=
  n ≠ EmptyString ∧ n ≠ "." ∧ n ≠ ".." ∧ contains "/" n = false.

(** The path that [filepath.WalkDir] hands to the closure for the entry
    reached from [root] through the directory entries [names]: each level
    joins the name of the entry to the path of its directory. *)
Definition walkPath (root : string) (names : list string) : string :=
  foldl (λ path name, filepath.Join [path; name]) root names.

(** The route template of a file, from its path relative to the root of
    the Mock Store, in the words of the specification: strip the [.json]
    suffix, split into segments by [/], and drop the last segment when it is
    [index]. *)
Definition specRouteTemplate (relPath : string) : list string :=
  let segments := str.Split (str.TrimSuffix relPath ".json") "/" in
  if decide (last segments = Some "index") then removelast segments
  else segments.

(** The elements that [filepath.Clean] keeps of [path], the last one
    first. *)
Definition kept (path : string) : list string :=
  foldl (filepath.cleanStep (filepath.rooted path)) [] (str.Split path "/").

(** The path that [filepath.Clean] writes for the elements [l] it kept. *)
Definition render (isRooted : bool) (l : list string) : string :=
  let s := (if isRooted then "/" else EmptyString) +:+ str.Join l "/" in
  if decide (s = EmptyString) then "." else s.

(** The elements kept of a path, the last one first: entry names above
    [".."] elements, the latter in a relative path only. *)
Definition cleanStack (isRooted : bool) (out : list string) : Prop :=
  ∃ names dots : list string,
    out = names ++ dots
    ∧ Forall entryName names
    ∧ Forall (λ x, x = "..") dots
    ∧ (isRooted = true → dots = []).

(** The chains of entry names that lead from a directory entry down to a
    file below it. *)
Inductive leadsToFile : Node → list string → Prop :=
| leads_here (n : string) : leadsToFile (File n) []
| leads_down (n : string) (e : option string) (ds : list Node) (d1 : Node)
    (names : list string) :
    d1 ∈ ds → leadsToFile d1 names →
    leadsToFile (Dir n e ds) (Name d1 :: names).

(** ** Package strconv *)

Module strconv.

(** [int] has 64 bits. *)
Definition maxInt : Z := 2 ^ 63 - 1.

Definition isDigit (c : ascii) : bool :=
  (48 <=? nat_of_ascii c)%nat && (nat_of_ascii c <=? 57)%nat.

Definition digitVal (c : ascii) : Z := Z.of_nat (nat_of_ascii c) - 48.

(** The value of a run of decimal digits, [None] at a byte that is not a
    digit. *)
Fixpoint parseDigits (s : string) (acc : Z) : option Z :=
  match s with
  | EmptyString => Some acc
  | String c s' =>
      if isDigit c then parseDigits s' (acc * 10 + digitVal c) else None
  end.

(** [strconv.Atoi]: an optional sign and decimal digits; [None] stands for
    a result with a non-nil error (bad syntax, or a value out of the range
    of [int]). *)
Definition Atoi (s : string) : option Z :=
  let '(neg, digits) :=
    match s with
    | String "-" s' => (true, s')
    | String "+" s' => (false, s')
    | _ => (false, s)
    end in
  if decide (digits = EmptyString) then None
  else
    match parseDigits digits 0 with
    | None => None
    | Some n =>
        if neg then (if (n <=? maxInt + 1)%Z then Some (- n)%Z else None)
        else (if (n <=? maxInt)%Z then Some n else None)
    end.

(** The digit that stands for a value below ten. *)
Definition digitChar (d : Z) : ascii := ascii_of_nat (Z.to_nat (48 + d)).

(** The loop of [formatBits] in base 10: the digits of [u] are written from
    the last one to the first, in front of [acc].  A value has at most
    [Z.log2 u + 1] digits, which bounds the loop. *)
Fixpoint formatBits (fuel : nat) (u : Z) (acc : string) : string :=
  match fuel with
  | 0 => acc
  | S fuel =>
      let acc := String (digitChar (u mod 10)) acc in
      if (u <? 10)%Z then acc else formatBits fuel (u / 10) acc
  end.

(** [strconv.Itoa] *)
Definition Itoa (i : Z) : string :=
  let u := Z.abs i in
  let digits := formatBits (S (Z.to_nat (Z.log2 u))) u EmptyString in
  if (i <? 0)%Z then String "-" digits else digits.

End strconv.

(** ** Package regexp, for the expression of [replacePathParams] *)

Module regexp.

(** [s] without the literal [lit] it begins with. *)
Fixpoint literal (lit s : string) : option string :=
  match lit with
  | EmptyString => Some s
  | String a lit' =>
      match s with
      | String b s' => if Ascii.eqb a b then literal lit' s' else None
      | EmptyString => None
      end
  end.

(** The longest run of digits that [s] begins with ([\d*], greedy), and
    the rest. *)
Fixpoint digits (s : string) : string * string :=
  match s with
  | String c s' =>
      if strconv.isDigit c
      then let '(ds, rest) := digits s' in (String c ds, rest)
      else (EmptyString, s)
  | EmptyString => (EmptyString, EmptyString)
  end.

(** The expression [\{path\.(\d+)\}] matched at the start of [s]: the text
    of the group and what follows the match. *)
Definition matchAt (s : string) : option (string * string) :=
  match literal "{path." s with
  | None => None
  | Some s1 =>
      match digits s1 with
      | (String c ds, String "}" rest) => Some (String c ds, rest)
      | _ => None
      end
  end.

(** The text of a match whose group is [group]. *)
Definition matched (group : string) : string :=
  "{path." +:+ group +:+ "}".

(** [re.FindStringSubmatch(s)]: the leftmost match and its group; [[]]
    stands for [nil], no match. *)
Fixpoint FindStringSubmatch (s : string) : list string :=
  match matchAt s with
  | Some (group, _) => [matched group; group]
  | None =>
      match s with
      | String _ s' => FindStringSubmatch s'
      | EmptyString => []
      end
  end.

(** The scan of [re.ReplaceAllStringFunc(src, repl)]: the leftmost match is
    replaced by [repl] of its text, and the scan goes on after the match;
    [skip] counts the bytes of a match that are still to be passed over. *)
Fixpoint replaceFrom (repl : string → string) (src : string) (skip : nat)
    : string :=
  match src with
  | EmptyString => EmptyString
  | String c src' =>
      match skip with
      | S skip' => replaceFrom repl src' skip'
      | 0 =>
          match matchAt src with
          | Some (group, _) =>
              repl (matched group)
              +:+ replaceFrom repl src' (String.length (matched group) - 1)
          | None => String c (replaceFrom repl src' 0)
          end
      end
  end.

Definition ReplaceAllStringFunc (src : string) (repl : string → string)
    : string :=
  replaceFrom repl src 0.

End regexp.

(** ** The Template Expander *)

(** Replace path parameters.  [currentPathParams] is the package variable
    that the function reads. *)
Definition replacePathParams (currentPathParams : list string) (s : string)
    : string :=
  regexp.ReplaceAllStringFunc s (λ match_,
    let idxStr := nth 1 (regexp.FindStringSubmatch match_) EmptyString in
    if negb (String.eqb idxStr EmptyString) then
      match strconv.Atoi idxStr with
      | Some idx =>
          if (idx <? Z.of_nat (length currentPathParams))%Z
          then nth (Z.to_nat idx) currentPathParams EmptyString
          else match_ (* Return as is if replacement fails *)
      | None => match_
      end
    else match_).

(** *** Tokens, as the specification words them *)

(** A non-empty run of decimal digits: a non-negative integer literal. *)
Definition isLiteral (ds : string) : Prop :=
  ds ≠ EmptyString ∧ regexp.digits ds = (ds, EmptyString).

(** The integer that a literal denotes. *)
Definition decimal (ds : string) : Z :=
  fold_left (λ acc c, (acc * 10 + strconv.digitVal c)%Z)
    (list_ascii_of_string ds) 0%Z.

(** The token [{path.N}]. *)
Definition token (ds : string) : string := "{path." +:+ ds +:+ "}".

(** A text without any syntactically valid token. *)
Definition tokenFree (t : string) : Prop :=
  ∀ a ds b, isLiteral ds → t ≠ a +:+ token ds +:+ b.

(** The same, decided by trying the expression at every position. *)
Fixpoint hasToken (t : string) : bool :=
  match t with
  | EmptyString => false
  | String _ t' => bool_decide (is_Some (regexp.matchAt t)) || hasToken t'
  end.

(** What the specification puts in the place of the token [{path.N}]:
    [PathParams[N]] when [N] is a valid index, the token itself
    otherwise. *)
Definition expandToken (pathParams : list string) (ds : string) : string :=
  match pathParams !! Z.to_nat (decimal ds) with
  | Some v => v
  | None => token ds
  end.

(** A text cut at its tokens: the text before the first token, then each
    token with the text that follows it; every token is written by
    [tok]. *)
Definition pieces (tok : string → string) (t0 : string)
    (l : list (string * string)) : string :=
  t0 +:+ String.concat EmptyString (map (λ p, tok p.1 +:+ p.2) l).

(** A text at which a run of digits stops: the end, or a byte that is not a
    digit. *)
Definition stops (r : string) : Prop := regexp.digits r = (EmptyString, r).

(** What may follow a text cut at its tokens: nothing, or a token. *)
Definition boundary (R : string) : Prop :=
  R = EmptyString ∨ ∃ R', R = String "{" R'.


(** ** Package unicode/utf8 *)

Module utf8.

Definition byte (c : ascii) : N := N_of_ascii c.

Definition between (lo hi : N) (c : ascii) : bool :=
  (lo <=? byte c)%N && (byte c <=? hi)%N.

(** The number of bytes of the encoded rune that [s] begins with, [0] when
    [s] does not begin with a valid encoding (the ranges of
    [utf8.DecodeRune]: no overlong form, no surrogate, nothing above
    U+10FFFF). *)
Definition runeLen (s : string) : nat :=
  match s with
  | String b0 s1 =>
      if (byte b0 <? 128)%N then 1
      else
        match s1 with
        | String b1 s2 =>
            if between 194 223 b0 then
              if between 128 191 b1 then 2 else 0
            else
              match s2 with
              | String b2 s3 =>
                  let second3 :=
                    if (byte b0 =? 224)%N then between 160 191 b1
                    else if (byte b0 =? 237)%N then between 128 159 b1
                    else between 225 239 b0 && between 128 191 b1 in
                  if between 224 239 b0 then
                    if second3 && between 128 191 b2 then 3 else 0
                  else
                    match s3 with
                    | String b3 _ =>
                        let second4 :=
                          if (byte b0 =? 240)%N then between 144 191 b1
                          else if (byte b0 =? 244)%N then between 128 143 b1
                          else between 241 243 b0 && between 128 191 b1 in
                        if second4 && between 128 191 b2
                           && between 128 191 b3
                        then 4 else 0
                    | EmptyString => 0
                    end
              | EmptyString => 0
              end
        | EmptyString => 0
        end
  | EmptyString => 0
  end.

Definition chr (n : N) : ascii := ascii_of_N n.

(** U+FFFD, the replacement character. *)
Definition RuneError : N := 65533.

(** [utf8.AppendRune]: the encoding of a rune; a surrogate or a value
    above U+10FFFF is written as U+FFFD. *)
Definition encode (r : N) : string :=
  let r := if ((55296 <=? r) && (r <=? 57343) || (1114111 <? r))%N
           then RuneError else r in
  if (r <? 128)%N then String (chr r) EmptyString
  else if (r <? 2048)%N then
    String (chr (192 + r / 64)) (String (chr (128 + r mod 64)) EmptyString)
  else if (r <? 65536)%N then
    String (chr (224 + r / 4096))
      (String (chr (128 + (r / 64) mod 64))
         (String (chr (128 + r mod 64)) EmptyString))
  else
    String (chr (240 + r / 262144))
      (String (chr (128 + (r / 4096) mod 64))
         (String (chr (128 + (r / 64) mod 64))
            (String (chr (128 + r mod 64)) EmptyString))).

End utf8.

(** ** Package encoding/json, for the type [MockResponse] *)

(** The descriptor of a mock file.  A nil slice, map or [RawMessage] is the
    empty one: the program only takes their length and ranges over
    them. *)
Record MockResponse := mkMock {
  Method : list string;          (* e.g. ["GET"], ["POST"], ["GET","POST"] *)
  Status : Z;                    (* Optional (default: 200) *)
  Delay : Z;                     (* Milliseconds *)
  Headers : gmap string string;  (* Arbitrary custom headers *)
  Body : string                  (* Holds raw JSON *)
}.

(** [var mock MockResponse] *)
Definition zeroMock : MockResponse := mkMock [] 0 0 ∅ EmptyString.

(** A finite [float64]: the value is [mant * 2 ^ expo], negated if
    [negative]; [mant] is at most [2 ^ 53] and [expo] at least [-1074].
    The program never holds an infinity or a NaN. *)
Record float64 := mkFloat64 {
  negative : bool;
  mant : Z;
  expo : Z
}.

(** What [json.Unmarshal] stores into an [interface{}]: [nil] for [null],
    a [string], a [float64], a [bool], a [[]interface{}] or a
    [map[string]interface{}].  The program reads the contents of the first
    two only. *)
Inductive any :=
| anyNil
| anyString (s : string)
| anyFloat64 (v : float64)
| anyBool (b : bool)
| anySlice
| anyMap.

(** The configuration file; [cfgDir] and [cfgPort] are its fields [Dir]
    and [Port]. *)
Record Config := mkConfig {
  cfgDir : string;   (* Dir, the key dir *)
  cfgPort : any      (* Port, the key port *)
}.

(** [var cfg Config] *)
Definition zeroConfig : Config := mkConfig EmptyString anyNil.

Module json.

(** A JSON value.  A number keeps its literal, a string is decoded, and a
    member of an object keeps the text of its value as the input has it. *)
#[warnings="-register-all"]
Inductive Value :=
| Null
| Bool (b : bool)
| Number (lit : string)
| Str (s : string)
| Array (elems : list Value)
| Object (members : list (string * string * Value)).

Definition isSpace (c : ascii) : bool :=
  Ascii.eqb c " " || Ascii.eqb c "009" || Ascii.eqb c "013"
  || Ascii.eqb c "010".

Fixpoint skipSpace (s : string) : string :=
  match s with
  | String c s' => if isSpace c then skipSpace s' else s
  | EmptyString => s
  end.

(** The text of [s] up to [rest], a suffix of it. *)
Definition consumed (s rest : string) : string :=
  str.slice s 0 (String.length s - String.length rest).

(** A number literal at the start of [s]: the rest after it. *)
Definition scanNumber (s : string) : option string :=
  let s1 := match s with String "-" r => r | _ => s end in
  let afterInt :=
    match s1 with
    | String "0" r => Some r
    | String c _ =>
        if strconv.isDigit c then Some (regexp.digits s1).2 else None
    | EmptyString => None
    end in
  let afterFrac (r : string) :=
    match r with
    | String "." r' =>
        match regexp.digits r' with
        | (String _ _, r'') => Some r''
        | _ => None
        end
    | _ => Some r
    end in
  let afterExp (r : string) :=
    match r with
    | String c r' =>
        if Ascii.eqb c "e" || Ascii.eqb c "E" then
          let r' := match r' with
                    | String "+" x => x
                    | String "-" x => x
                    | _ => r'
                    end in
          match regexp.digits r' with
          | (String _ _, r'') => Some r''
          | _ => None
          end
        else Some r
    | EmptyString => Some r
    end in
  match afterInt with
  | Some r =>
      match afterFrac r with
      | Some r' => afterExp r'
      | None => None
      end
  | None => None
  end.

Definition hexVal (c : ascii) : option N :=
  let n := N_of_ascii c in
  if ((48 <=? n) && (n <=? 57))%N then Some (n - 48)%N
  else if ((97 <=? n) && (n <=? 102))%N then Some (n - 87)%N
  else if ((65 <=? n) && (n <=? 70))%N then Some (n - 55)%N
  else None.

(** [getu4]: the rune of four hexadecimal digits. *)
Definition getu4 (h1 h2 h3 h4 : ascii) : option N :=
  a ← hexVal h1; b ← hexVal h2; c ← hexVal h3; d ← hexVal h4;
  Some (a * 4096 + b * 256 + c * 16 + d)%N.

Definition simpleEscape (c : ascii) : option ascii :=
  if Ascii.eqb c "034" then Some "034"%char
  else if Ascii.eqb c "\" then Some "\"%char
  else if Ascii.eqb c "/" then Some "/"%char
  else if Ascii.eqb c "b" then Some "008"%char
  else if Ascii.eqb c "f" then Some "012"%char
  else if Ascii.eqb c "n" then Some "010"%char
  else if Ascii.eqb c "r" then Some "013"%char
  else if Ascii.eqb c "t" then Some "009"%char
  else None.

Definition prepend (c : ascii) (r : option (string * string))
    : option (string * string) :=
  match r with
  | Some (decoded, rest) => Some (String c decoded, rest)
  | None => None
  end.

Definition prependRune (rune : N) (r : option (string * string))
    : option (string * string) :=
  match r with
  | Some (decoded, rest) => Some (utf8.encode rune +:+ decoded, rest)
  | None => None
  end.

Definition isSurrogate (r : N) : bool := ((55296 <=? r) && (r <? 57344))%N.

(** [utf16.DecodeRune]: the rune of a surrogate pair, U+FFFD for two
    values that are not a pair. *)
Definition decodePair (r1 r2 : N) : N :=
  if ((55296 <=? r1) && (r1 <? 56320) && (56320 <=? r2) && (r2 <? 57344))%N
  then ((r1 - 55296) * 1024 + (r2 - 56320) + 65536)%N
  else utf8.RuneError.

(** A string literal after its opening quote: the decoded string (as
    [unquote] builds it) and the rest after the closing quote; [None] for a
    literal that the scanner refuses.  An escape gives its byte or the
    encoding of its rune, a pair of surrogate escapes the rune of the
    pair, a byte that begins no valid encoding gives U+FFFD; [cont] counts
    the bytes of a valid encoding that are still to be copied. *)
Fixpoint scanString (s : string) (cont : nat) : option (string * string) :=
  match s with
  | EmptyString => None
  | String c s' =>
      match cont with
      | S cont' => prepend c (scanString s' cont')
      | 0 =>
          if Ascii.eqb c "034" then Some (EmptyString, s')
          else if Ascii.eqb c "\" then
            match s' with
            | String e s'' =>
                match simpleEscape e with
                | Some b => prepend b (scanString s'' 0)
                | None =>
                    if Ascii.eqb e "u" then
                      match s'' with
                      | String h1 (String h2 (String h3 (String h4 s3))) =>
                          match getu4 h1 h2 h3 h4 with
                          | None => None
                          | Some rr =>
                              if isSurrogate rr then
                                match s3 with
                                | String "\" (String "u" (String g1 (String g2
                                    (String g3 (String g4 s4))))) =>
                                    match getu4 g1 g2 g3 g4 with
                                    | Some rr1 =>
                                        if (decodePair rr rr1
                                            =? utf8.RuneError)%N
                                        then prependRune utf8.RuneError
                                               (scanString s3 0)
                                        else prependRune (decodePair rr rr1)
                                               (scanString s4 0)
                                    | None => None
                                    end
                                | _ => prependRune utf8.RuneError
                                         (scanString s3 0)
                                end
                              else prependRune rr (scanString s3 0)
                          end
                      | _ => None
                      end
                    else None
                end
            | EmptyString => None
            end
          else if (utf8.byte c <? 32)%N then None
          else if (utf8.byte c <? 128)%N then prepend c (scanString s' 0)
          else
            match utf8.runeLen s with
            | 0 => prependRune utf8.RuneError (scanString s' 0)
            | S n => prepend c (scanString s' n)
            end
      end
  end.

Definition maxNestingDepth : N := 10000.

(** [s] without the byte [c] it begins with. *)
Definition expect (c : ascii) (s : string) : option string :=
  match s with
  | String a s' => if Ascii.eqb a c then Some s' else None
  | EmptyString => None
  end.

(** The value that [s] begins with and the rest after it; [depth] is the
    number of arrays and objects the value lies in.  [parseElems] reads
    the elements of an array up to its closing bracket, [parseMembers] the
    members of an object up to its closing brace.  [fuel] bounds the
    recursion: the number of bytes read is enough. *)
Fixpoint parseValue (fuel : nat) (depth : N) (s : string) {struct fuel}
    : option (Value * string) :=
  match fuel with
  | 0 => None
  | S fuel =>
      match s with
      | String c r =>
          if Ascii.eqb c "{" then
            if (maxNestingDepth <? depth + 1)%N then None
            else
              match expect "}" (skipSpace r) with
              | Some r' => Some (Object [], r')
              | None =>
                  match parseMembers fuel (depth + 1)%N (skipSpace r) with
                  | Some (ms, rest) => Some (Object ms, rest)
                  | None => None
                  end
              end
          else if Ascii.eqb c "[" then
            if (maxNestingDepth <? depth + 1)%N then None
            else
              match expect "]" (skipSpace r) with
              | Some r' => Some (Array [], r')
              | None =>
                  match parseElems fuel (depth + 1)%N (skipSpace r) with
                  | Some (vs, rest) => Some (Array vs, rest)
                  | None => None
                  end
              end
          else if Ascii.eqb c "034" then
            match scanString r 0 with
            | Some (decoded, rest) => Some (Str decoded, rest)
            | None => None
            end
          else if Ascii.eqb c "t" then
            match regexp.literal "rue" r with
            | Some rest => Some (Bool true, rest)
            | None => None
            end
          else if Ascii.eqb c "f" then
            match regexp.literal "alse" r with
            | Some rest => Some (Bool false, rest)
            | None => None
            end
          else if Ascii.eqb c "n" then
            match regexp.literal "ull" r with
            | Some rest => Some (Null, rest)
            | None => None
            end
          else
            match scanNumber s with
            | Some rest => Some (Number (consumed s rest), rest)
            | None => None
            end
      | EmptyString => None
      end
  end
with parseElems (fuel : nat) (depth : N) (s : string) {struct fuel}
    : option (list Value * string) :=
  match fuel with
  | 0 => None
  | S fuel =>
      match parseValue fuel depth s with
      | Some (v, rest) =>
          match expect "," (skipSpace rest) with
          | Some r =>
              match parseElems fuel depth (skipSpace r) with
              | Some (vs, rest') => Some (v :: vs, rest')
              | None => None
              end
          | None =>
              match expect "]" (skipSpace rest) with
              | Some r => Some ([v], r)
              | None => None
              end
          end
      | None => None
      end
  end
with parseMembers (fuel : nat) (depth : N) (s : string) {struct fuel}
    : option (list (string * string * Value) * string) :=
  match fuel with
  | 0 => None
  | S fuel =>
      match expect "034" s with
      | Some r =>
          match scanString r 0 with
          | Some (key, rest) =>
              match expect ":" (skipSpace rest) with
              | Some r1 =>
                  let start := skipSpace r1 in
                  match parseValue fuel depth start with
                  | Some (v, rest1) =>
                      let member := (key, consumed start rest1, v) in
                      match expect "," (skipSpace rest1) with
                      | Some r2 =>
                          match parseMembers fuel depth (skipSpace r2) with
                          | Some (ms, rest2) => Some (member :: ms, rest2)
                          | None => None
                          end
                      | None =>
                          match expect "}" (skipSpace rest1) with
                          | Some r2 => Some ([member], r2)
                          | None => None
                          end
                      end
                  | None => None
                  end
              | None => None
              end
          | None => None
          end
      | None => None
      end
  end.

(** The whole input as one value, with white space around it.  The fuel
    is the length of the input and one more, which is enough
    ([parse_fuel_enough] below). *)
Definition parse (data : string) : option Value :=
  match parseValue (S (String.length data)) 0 (skipSpace data) with
  | Some (v, rest) =>
      if decide (skipSpace rest = EmptyString) then Some v else None
  | None => None
  end.

(** *** Decoding into a [MockResponse] *)

Definition upper (c : ascii) : ascii :=
  if utf8.between 97 122 c then utf8.chr (utf8.byte c - 32) else c.

(** [foldName]: the key with its letters in upper case; the two runes
    outside ASCII that fold to an ASCII letter, U+017F and U+212A, give
    [S] and [K]. *)
Fixpoint foldName (s : string) : string :=
  match s with
  | String "197" (String "191" r) => String "S" (foldName r)
  | String "226" (String "132" (String "170" r)) => String "K" (foldName r)
  | String c r => String (upper c) (foldName r)
  | EmptyString => EmptyString
  end.

(** A string: [null] leaves the value as it is. *)
Definition decodeString (old : string) (v : Value) : option string :=
  match v with
  | Str s => Some s
  | Null => Some old
  | _ => None
  end.

(** An [int]: the literal must be an integer in the range of [int]. *)
Definition decodeInt (old : Z) (v : Value) : option Z :=
  match v with
  | Number lit => strconv.Atoi lit
  | Null => Some old
  | _ => None
  end.

(** The elements of a [[]string]; an element is decoded into the element
    that the slice holds at its index, if any.  (What a repeated key leaves
    in the capacity of the slice beyond its length is not modelled.) *)
Fixpoint decodeElems (old : list string) (elems : list Value)
    : option (list string) :=
  match elems with
  | [] => Some []
  | e :: elems' =>
      x ← decodeString (hd EmptyString old) e;
      xs ← decodeElems (tl old) elems';
      Some (x :: xs)
  end.

Definition decodeStrings (old : list string) (v : Value)
    : option (list string) :=
  match v with
  | Array elems => decodeElems old elems
  | Null => Some []
  | _ => None
  end.

(** The members of a [map[string]string], stored into the map that the
    field holds. *)
Fixpoint decodeMembers (old : gmap string string)
    (members : list (string * string * Value)) : option (gmap string string) :=
  match members with
  | [] => Some old
  | (key, _, v) :: members' =>
      x ← decodeString EmptyString v;
      decodeMembers (<[key := x]> old) members'
  end.

Definition decodeMap (old : gmap string string) (v : Value)
    : option (gmap string string) :=
  match v with
  | Object members => decodeMembers old members
  | Null => Some ∅
  | _ => None
  end.

(** One member of the top-level object: the field whose name the key
    folds to is decoded, a key of no field is skipped. *)
Definition decodeField (mock : MockResponse)
    (member : string * string * Value) : option MockResponse :=
  let '(key, raw, v) := member in
  let name := foldName key in
  if decide (name = "METHOD") then
    x ← decodeStrings (Method mock) v;
    Some (mkMock x (Status mock) (Delay mock) (Headers mock) (Body mock))
  else if decide (name = "STATUS") then
    x ← decodeInt (Status mock) v;
    Some (mkMock (Method mock) x (Delay mock) (Headers mock) (Body mock))
  else if decide (name = "DELAY") then
    x ← decodeInt (Delay mock) v;
    Some (mkMock (Method mock) (Status mock) x (Headers mock) (Body mock))
  else if decide (name = "HEADERS") then
    x ← decodeMap (Headers mock) v;
    Some (mkMock (Method mock) (Status mock) (Delay mock) x (Body mock))
  else if decide (name = "BODY") then
    Some (mkMock (Method mock) (Status mock) (Delay mock) (Headers mock) raw)
  else Some mock.

Fixpoint decodeFields (mock : MockResponse)
    (members : list (string * string * Value)) : option MockResponse :=
  match members with
  | [] => Some mock
  | member :: members' =>
      mock' ← decodeField mock member; decodeFields mock' members'
  end.

(** [json.Unmarshal(data, &mock)] for a zero [mock]: the descriptor, or
    [None] for a non-nil error (the input is not one JSON value, or a value
    does not fit the type of its field or of the descriptor). *)
Definition Unmarshal (data : string) : option MockResponse :=
  match parse data with
  | Some (Object members) => decodeFields zeroMock members
  | Some Null => Some zeroMock
  | _ => None
  end.

(** *** Decoding into a [Config] *)

(** [floor (log2 (n / d))] for positive [n] and [d]. *)
Definition floorLog2 (n d : Z) : Z :=
  let g := (Z.log2 n - Z.log2 d)%Z in
  let reached :=
    if (0 <=? g)%Z then (d * 2 ^ g <=? n)%Z else (d <=? n * 2 ^ (- g))%Z in
  if reached then g else (g - 1)%Z.

(** The integer nearest to [n / d], the even one of two that are equally
    near. *)
Definition roundEven (n d : Z) : Z :=
  let q := (n / d)%Z in
  let r := (n mod d)%Z in
  if (2 * r <? d)%Z then q
  else if (d <? 2 * r)%Z then (q + 1)%Z
  else if Z.even q then q else (q + 1)%Z.

(** The [float64] nearest to [n / d], for positive [n] and [d], as its
    mantissa of 53 bits and its exponent; [None] where the nearest value
    is beyond the largest finite [float64]. *)
Definition nearest (n d : Z) : option (Z * Z) :=
  let e := Z.max (floorLog2 n d - 52) (-1074) in
  let m :=
    if (0 <=? e)%Z then roundEven n (d * 2 ^ e)
    else roundEven (n * 2 ^ (- e)) d in
  if (971 <? e)%Z || ((e =? 971)%Z && (m =? 2 ^ 53)%Z) then None
  else Some (m, e).

(** [convertNumber]: [strconv.ParseFloat(s, 64)] for a number literal of
    JSON, the nearest [float64]; [None] stands for the error of a literal
    out of range. *)
Definition convertNumber (s : string) : option float64 :=
  let '(neg, s1) :=
    match s with String "-" r => (true, r) | _ => (false, s) end in
  let '(ip, r1) := regexp.digits s1 in
  let '(fp, r2) :=
    match r1 with
    | String "." r => regexp.digits r
    | _ => (EmptyString, r1)
    end in
  let exponent :=
    match r2 with
    | EmptyString => Some 0%Z
    | String c r =>
        if Ascii.eqb c "e" || Ascii.eqb c "E" then
          match r with
          | String "-" ds => Z.opp <$> strconv.parseDigits ds 0
          | String "+" ds => strconv.parseDigits ds 0
          | _ => strconv.parseDigits r 0
          end
        else None
    end in
  match strconv.parseDigits (ip +:+ fp) 0, exponent with
  | Some m, Some e =>
      let e := (e - Z.of_nat (String.length fp))%Z in
      if (m =? 0)%Z then Some (mkFloat64 neg 0 0)
      else
        match (if (0 <=? e)%Z then nearest (m * 10 ^ e) 1
               else nearest m (10 ^ (- e))) with
        | Some (mant, expo) => Some (mkFloat64 neg mant expo)
        | None => None
        end
  | _, _ => None
  end.

(** A value decoded into an [interface{}]; every number in it is
    converted, also those of an array or an object. *)
Fixpoint decodeAny (v : Value) : option any :=
  match v with
  | Null => Some anyNil
  | Bool b => Some (anyBool b)
  | Number lit => anyFloat64 <$> convertNumber lit
  | Str s => Some (anyString s)
  | Array elems =>
      if forallb (λ e, bool_decide (is_Some (decodeAny e))) elems
      then Some anySlice else None
  | Object members =>
      if forallb (λ m, let '(_, _, e) := m in
                       bool_decide (is_Some (decodeAny e))) members
      then Some anyMap else None
  end.

Definition decodeConfigField (cfg : Config)
    (member : string * string * Value) : option Config :=
  let '(key, _, v) := member in
  let name := foldName key in
  if decide (name = "DIR") then
    x ← decodeString (cfgDir cfg) v; Some (mkConfig x (cfgPort cfg))
  else if decide (name = "PORT") then
    x ← decodeAny v; Some (mkConfig (cfgDir cfg) x)
  else Some cfg.

Fixpoint decodeConfigFields (cfg : Config)
    (members : list (string * string * Value)) : option Config :=
  match members with
  | [] => Some cfg
  | member :: members' =>
      cfg' ← decodeConfigField cfg member; decodeConfigFields cfg' members'
  end.

(** [json.Unmarshal(data, &cfg)] for a zero [cfg]: the configuration, or
    [None] for a non-nil error. *)
Definition UnmarshalConfig (data : string) : option Config :=
  match parse data with
  | Some (Object members) => decodeConfigFields zeroConfig members
  | Some Null => Some zeroConfig
  | _ => None
  end.

End json.

(** JSON text for the examples: [s] with each apostrophe read as a double
    quote. *)
Fixpoint qq (s : string) : string :=
  match s with
  | String c s' => String (if Ascii.eqb c "'" then "034"%char else c) (qq s')
  | EmptyString => EmptyString
  end.

(** A run that succeeds has read at least one byte, and succeeds in the
    same way with any fuel that is at least the number of bytes read. *)
Definition fuelOK {A : Type} (run : nat → option (A * string)) (s : string)
    (fuel : nat) : Prop :=
  ∀ r rest, run fuel = Some (r, rest) →
    String.length rest < String.length s
    ∧ ∀ fuel', String.length s - String.length rest ≤ fuel' →
        run fuel' = Some (r, rest).


(** ** The Response Synthesizer: [mockHandler] *)

(** What the handler does to its [http.ResponseWriter] and to the rest of
    the world, in order.  An event records a call with its arguments; what
    the callee makes of them lies outside the handler (net/http, for one,
    refuses a status code outside 100..999). *)
Inductive Event :=
| SetHeader (key value : string)    (* w.Header().Set(key, value) *)
| WriteHeader (statusCode : Z)      (* w.WriteHeader(statusCode) *)
| WriteBody (data : string)         (* w.Write(data) *)
| EncodeJSON (body : list (string * string))
                                    (* json.NewEncoder(w).Encode(body), for a
                                       map with these entries *)
| Sleep (duration : Z)              (* time.Sleep(duration), nanoseconds *)
| LogPrintf (line : string).        (* log.Printf *)

(** The request, as far as the handler reads it. *)
Record Request := mkRequest {
  URLPath : string;   (* r.URL.Path *)
  ReqMethod : string  (* r.Method *)
}.

(** What [os.Open] and [io.ReadAll] give for a path: [Open] fails, or the
    file opens and [ReadAll] returns the bytes read and, possibly, an
    error. *)
Inductive OpenResult :=
| OpenError (msg : string)
| Opened (data : string) (readErr : option string).

(** The world outside the handler: the tree below the mock directory and
    the files as they open. *)
Record World := mkWorld {
  store : FS;
  osOpen : string → OpenResult
}.

(** A value of type [int64] after an overflow. *)
Definition wrap64 (z : Z) : Z := (z + 2 ^ 63) mod 2 ^ 64 - 2 ^ 63.

(** [time.Millisecond], in nanoseconds. *)
Definition Millisecond : Z := 1000000.

Definition respondJSON (status : Z) (body : list (string * string))
    : list Event :=
  [SetHeader "Content-Type" "application/json; charset=utf-8";
   WriteHeader status;
   EncodeJSON body].

(** Allow all CORS *)
Definition corsHeaders : list Event :=
  [SetHeader "Access-Control-Allow-Origin" "*";
   SetHeader "Access-Control-Allow-Methods" "GET,POST,PUT,DELETE,OPTIONS";
   SetHeader "Access-Control-Allow-Headers" "*"].

(** The handler after the descriptor was parsed: method check, delay,
    headers, status and body.  The headers are set in the order in which
    the [range] over the map yields them, which Go leaves open;
    [map_to_list] stands for one such order. *)
Definition serveMock (currentPathParams : list string) (r : Request)
    (mock : MockResponse) : list Event :=
  (* Check method *)
  if (0 <? length (Method mock))%nat
     && negb (existsb (String.eqb (ReqMethod r)) (Method mock))
  then
    respondJSON 405 [("error", "Method Not Allowed");
                     ("allow", str.Join (Method mock) ", ")]
  else
    (* Handle delay *)
    (if (0 <? Delay mock)%Z
     then [Sleep (wrap64 (wrap64 (Delay mock) * Millisecond))] else [])
    (* Set headers *)
    ++ map (λ kv, SetHeader kv.1 (replacePathParams currentPathParams kv.2))
         (map_to_list (Headers mock))
    ++
    (* status (default 200) *)
    let status := Status mock in
    let status := if (status =? 0)%Z then 200%Z else status in
    (* If body is empty -> 204 or empty JSON *)
    if (String.length (Body mock) =? 0)%nat || String.eqb (Body mock) "null"
    then
      let status := if (status =? 200)%Z then 204%Z else status in
      [WriteHeader status]
    else
      (* Replace {path.x} with actual values *)
      let replacedBody := replacePathParams currentPathParams (Body mock) in
      [SetHeader "Content-Type" "application/json; charset=utf-8";
       WriteHeader status;
       WriteBody replacedBody].

(** [mockHandler]: the events of one request and the value that the
    package variable [currentPathParams] holds afterwards. *)
Definition mockHandler (world : World) (configDir : string)
    (currentPathParams : list string) (r : Request)
    : list Event * list string :=
  if String.eqb (URLPath r) "/" then
    ([SetHeader "Content-Type" "text/plain; charset=utf-8";
      WriteBody "apimock server is running!"],
     currentPathParams)
  else if String.eqb (ReqMethod r) "OPTIONS" then
    (corsHeaders ++ [WriteHeader 200], currentPathParams)
  else
    let requestPath := str.TrimPrefix (URLPath r) "/" in
    let '(filePath, pathParams, logged) :=
      findBestMockFile (store world) configDir requestPath in
    let currentPathParams := pathParams in
    let events :=
      (* 404 if file not found *)
      if String.eqb filePath EmptyString then
        respondJSON 404 [("error", "Not Found")]
      else
        (* Parse JSON file *)
        match osOpen world filePath with
        | OpenError _ => respondJSON 500 [("error", "Server Error")]
        | Opened data _ =>
            match json.Unmarshal data with
            | None =>
                (* Parse failed -> return as raw JSON with 200 *)
                [SetHeader "Content-Type" "application/json";
                 WriteHeader 200;
                 WriteBody data]
            | Some mock => serveMock currentPathParams r mock
            end
        end in
    (corsHeaders ++ map LogPrintf logged ++ events, currentPathParams).

(** *** The response that a client sees *)

(** The status of the response: the one that the handler writes first; a
    body written before any status implies 200. *)
Fixpoint statusOf (events : list Event) : option Z :=
  match events with
  | WriteHeader code :: _ => Some code
  | WriteBody _ :: _ | EncodeJSON _ :: _ => Some 200%Z
  | _ :: events' => statusOf events'
  | [] => None
  end.

(** The bytes written as the body by [w.Write]. *)
Fixpoint bodyOf (events : list Event) : string :=
  match events with
  | WriteBody data :: events' => data +:+ bodyOf events'
  | _ :: events' => bodyOf events'
  | [] => EmptyString
  end.

(** The handler wrote no body at all. *)
Definition noBody (events : list Event) : Prop :=
  ∀ e, e ∈ events → (∀ data, e ≠ WriteBody data) ∧ (∀ v, e ≠ EncodeJSON v).

(** The handler did not sleep. *)
Definition noSleep (events : list Event) : Prop :=
  ∀ e, e ∈ events → ∀ d, e ≠ Sleep d.

(** The value of the header [key] when the status is written (the last one
    set before that). *)
Fixpoint headerOf (key : string) (events : list Event) (current : option string)
    : option string :=
  match events with
  | SetHeader k v :: events' =>
      headerOf key events' (if String.eqb k key then Some v else current)
  | WriteHeader _ :: _ | WriteBody _ :: _ | EncodeJSON _ :: _ => current
  | _ :: events' => headerOf key events' current
  | [] => current
  end.

(** The request [r] is neither for the root nor a preflight, the Path
    Matcher finds [filePath] for it, capturing [pathParams] and logging
    [logged], and the file opens and reads as [data] (with [readErr]). *)
Definition reaches (world : World) (configDir : string) (r : Request)
    (filePath : string) (pathParams logged : list string) (data : string)
    (readErr : option string) : Prop :=
  URLPath r ≠ "/"
  ∧ ReqMethod r ≠ "OPTIONS"
  ∧ findBestMockFile (store world) configDir (str.TrimPrefix (URLPath r) "/")
    = (filePath, pathParams, logged)
  ∧ filePath ≠ EmptyString
  ∧ osOpen world filePath = Opened data readErr.

(** The descriptor lets the method of the request pass. *)
Definition methodAllowed (r : Request) (mock : MockResponse) : Prop :=
  Method mock = [] ∨ ReqMethod r ∈ Method mock.

(** The body of the descriptor is empty or literally [null]. *)
Definition bodyEmpty (mock : MockResponse) : Prop :=
  Body mock = EmptyString ∨ Body mock = "null".

(** The headers of the descriptor, expanded and set. *)
Definition headerEvents (pathParams : list string) (mock : MockResponse)
    : list Event :=
  map (λ kv, SetHeader kv.1 (replacePathParams pathParams kv.2))
    (map_to_list (Headers mock)).

(** A Mock Store with the one file [mock/user.json], and requests for
    it. *)
Definition oneFileStore : FS := Root (Dir "mock" None [File "user.json"]).

Definition oneFileWorld (content : OpenResult) : World :=
  mkWorld oneFileStore (λ _, content).

Definition getUser : Request := mkRequest "/user" "GET".

(** Events that leave the status and the body of the response open. *)
Definition silent (e : Event) : Prop :=
  match e with
  | SetHeader _ _ | Sleep _ | LogPrintf _ => True
  | _ => False
  end.


(** Steps 5 and 6 of the algorithm of the specification: the effective
    status, and the body unless it is empty. *)
Definition statusAndBody (pathParams : list string) (mock : MockResponse)
    : list Event :=
  let status := if (Status mock =? 0)%Z then 200%Z else Status mock in
  if bool_decide (bodyEmpty mock)
  then [WriteHeader (if (status =? 200)%Z then 204%Z else status)]
  else [SetHeader "Content-Type" "application/json; charset=utf-8";
        WriteHeader status;
        WriteBody (replacePathParams pathParams (Body mock))].

(** The response that reports a method outside the list of the
    descriptor. *)
Definition methodNotAllowed (mock : MockResponse) : list Event :=
  [SetHeader "Content-Type" "application/json; charset=utf-8";
   WriteHeader 405;
   EncodeJSON [("error", "Method Not Allowed");
               ("allow", str.Join (Method mock) ", ")]].

(** The raw fallback for bytes that are no descriptor. *)
Definition rawResponse (data : string) : list Event :=
  [SetHeader "Content-Type" "application/json";
   WriteHeader 200;
   WriteBody data].

(** The Mock Store of the scenarios of the specification. *)
Definition usersStore : FS :=
  Root (Dir "mock" None
          [Dir "users" None
             [Dir "_" None [File "profile.json"];
              File "_.json";
              File "created.json";
              File "index.json"]]).

(** Two templates of equal score for the request [a/b]. *)
Definition tieStore : FS :=
  Root (Dir "mock" None
          [Dir "_" None [File "b.json"];
           Dir "a" None [File "_.json"]]).

(** ** Further notions for the handler and the matcher *)

(** The number of calls of [w.WriteHeader]. *)
Fixpoint statusWrites (events : list Event) : nat :=
  match events with
  | WriteHeader _ :: events' => S (statusWrites events')
  | _ :: events' => statusWrites events'
  | [] => 0
  end.

(** [tieStore] with its two directories read in the other order. *)
Definition tieStoreSwapped : FS :=
  Root (Dir "mock" None
          [Dir "a" None [File "_.json"];
           Dir "_" None [File "b.json"]]).

(** Requests handled in turn, each call of the handler ending before the
    next one begins: the events of each request and the value that the
    package variable [currentPathParams] holds at the end.  (Calls that
    overlap race on the variable; that is outside this definition.) *)
Fixpoint serveInTurn (world : World) (configDir : string)
    (currentPathParams : list string) (requests : list Request)
    : list (list Event) * list string :=
  match requests with
  | [] => ([], currentPathParams)
  | r :: requests' =>
      let '(events, currentPathParams) :=
        mockHandler world configDir currentPathParams r in
      let '(rest, currentPathParams) :=
        serveInTurn world configDir currentPathParams requests' in
      (events :: rest, currentPathParams)
  end.

(** ** The configuration: [initConfig] and [loadConfigFromPath] *)

(** The conversion [int(v)] of a [float64]: the value without its
    fraction.  Where that is out of the range of [int] the result depends
    on the platform, which [overflow] stands for. *)
Definition int (overflow : float64 → Z) (v : float64) : Z :=
  let t :=
    if (0 <=? expo v)%Z then (mant v * 2 ^ expo v)%Z
    else (mant v / 2 ^ (- expo v))%Z in
  let i := if negative v then (- t)%Z else t in
  if (- 2 ^ 63 <=? i)%Z && (i <? 2 ^ 63)%Z then i else overflow v.

(** The variables [configDir] and [configPort]. *)
Record Settings := mkSettings {
  configDir : string;   (* Directory to use eventually *)
  configPort : string   (* Port to use eventually *)
}.

(** What the program meets outside of itself when it starts, on Unix: the
    variable [$HOME] (the empty string if unset), which is also what
    [os.UserHomeDir] returns beside its error; [os.ReadFile] ([None] for an
    error); [os.Stat] ([None] for an error, else whether the path is a
    directory); and the platform's [int] of a [float64] out of range. *)
Record Env := mkEnv {
  HOME : string;
  ReadFile : string → option string;
  Stat : string → option bool;
  intOverflow : float64 → Z
}.

(** What the configuration writes to the log.  The text of the error of
    [json.Unmarshal] is not modelled. *)
Inductive ConfigLog :=
| ParseWarning (path : string)
    (* [WARNING] Failed to parse config file '%s': %v *)
| Fatal (line : string).

Definition loadConfigFromPath (env : Env) (st : Settings) (path : string)
    : Settings * list ConfigLog :=
  match ReadFile env path with
  | None => (st, []) (* Ignore if file does not exist *)
  | Some data =>
      match json.UnmarshalConfig data with
      | None => (st, [ParseWarning path])
      | Some cfg =>
          let dir :=
            if decide (cfgDir cfg ≠ EmptyString) then
              if str.HasPrefix (cfgDir cfg) "~/" then
                filepath.Join
                  [HOME env;
                   str.slice (cfgDir cfg) 2 (String.length (cfgDir cfg))]
              else cfgDir cfg
            else configDir st in
          let port :=
            match cfgPort cfg with
            | anyString v => v
            | anyFloat64 v => strconv.Itoa (int (intOverflow env) v)
            | _ => configPort st
            end in
          (mkSettings dir port, [])
      end
  end.

(** [initConfig] with the values of the flags [--dir] and [--port]: the
    settings and the log; a [Fatal] line ends the program. *)
Definition initConfig (env : Env) (mockDir port : string)
    : Settings * list ConfigLog :=
  (* Default values *)
  let st := mkSettings "mock" "8080" in
  (* 1. Load config from home directory *)
  let '(st, log1) := loadConfigFromPath env st (HOME env +:+ "/.apimockrc") in
  (* 2. Load config from current directory (override) *)
  let '(st, log2) := loadConfigFromPath env st ".apimockrc" in
  (* Override if command line arguments are specified *)
  let st :=
    if decide (mockDir ≠ EmptyString) then mkSettings mockDir (configPort st)
    else st in
  let st :=
    if decide (port ≠ EmptyString) then mkSettings (configDir st) port
    else st in
  (* Final check *)
  let fatal :=
    match Stat env (configDir st) with
    | Some true => []
    | _ =>
        [Fatal ("Mock directory '" +:+ configDir st
                +:+ "' not found. Please specify with --dir or write correct path in .apimockrc.")]
    end in
  (st, log1 ++ log2 ++ fatal).

(** *** The settings, source by source *)

(** The configuration that the file at [path] gives: none if the file
    cannot be read or is refused by [json.Unmarshal]. *)
Definition fileConfig (env : Env) (path : string) : option Config :=
  data ← ReadFile env path; json.UnmarshalConfig data.

(** The directory that the file at [path] sets, if it sets one: a
    non-empty [dir], with a leading [~/] replaced by the home directory. *)
Definition dirSetBy (env : Env) (path : string) : option string :=
  cfg ← fileConfig env path;
  if decide (cfgDir cfg = EmptyString) then None
  else if str.HasPrefix (cfgDir cfg) "~/" then
    Some (filepath.Join
            [HOME env; str.slice (cfgDir cfg) 2 (String.length (cfgDir cfg))])
  else Some (cfgDir cfg).

(** The port that the file at [path] sets, if it sets one: a string, also
    the empty one, or a number without its fraction. *)
Definition portSetBy (env : Env) (path : string) : option string :=
  cfg ← fileConfig env path;
  match cfgPort cfg with
  | anyString v => Some v
  | anyFloat64 v => Some (strconv.Itoa (int (intOverflow env) v))
  | _ => None
  end.

(** A flag sets a value unless it is empty. *)
Definition flagSet (value : string) : option string :=
  if decide (value = EmptyString) then None else Some value.

(** The value of the first source that sets one. *)
Fixpoint firstSet (sources : list (option string)) (default : string)
    : string :=
  match sources with
  | [] => default
  | Some v :: _ => v
  | None :: sources' => firstSet sources' default
  end.

(** An environment with the files of an association list, in which
    [dirs] are the directories. *)
Definition envOf (home : string) (files : list (string * string))
    (dirs : list string) : Env :=
  mkEnv home
    (λ path, snd <$> List.find (λ f, String.eqb f.1 path) files)
    (λ path, if existsb (String.eqb path) dirs then Some true
             else if existsb (λ f, String.eqb f.1 path) files then Some false
             else None)
    (λ _, (- 2 ^ 63)%Z).

(** A plain literal for a natural number: digits, the first of which is
    [0] only if it is the only one. *)
Definition plainNumber (lit : string) : Prop :=
  isLiteral lit ∧ (lit = "0" ∨ ∀ r, lit ≠ String "0" r).


(** * Properties *)

(** ** Byte strings *)

Lemma app_cons (c : ascii) (a b : string) :
  String c a +:+ b = String c (a +:+ b).
Proof. done. Qed.

Lemma app_empty_l (b : string) : EmptyString +:+ b = b.
Proof. done. Qed.

Ltac sapp := rewrite ?app_cons, ?app_empty_l in *.

Lemma length_app (a b : string) :
  String.length (a +:+ b) = String.length a + String.length b.
Proof. induction a as [|c a IH]; sapp; simpl; [done|by rewrite IH]. Qed.

Lemma app_empty_r (a : string) : a +:+ EmptyString = a.
Proof. induction a as [|c a IH]; sapp; [done|by rewrite IH]. Qed.

Lemma app_assoc_s (a b c : string) : (a +:+ b) +:+ c = a +:+ (b +:+ c).
Proof. induction a as [|x a IH]; sapp; [done|by rewrite IH]. Qed.

Lemma app_inv_tail_s (a b c : string) : a +:+ c = b +:+ c → a = b.
Proof.
  revert b. induction a as [|x a IH]; intros [|y b] H; sapp.
  - done.
  - apply (f_equal String.length) in H. simpl in H.
    rewrite length_app in H. lia.
  - apply (f_equal String.length) in H. simpl in H.
    rewrite length_app in H. lia.
  - injection H as -> H. f_equal. by apply IH.
Qed.

Lemma substring_0_0 (s : string) : substring 0 0 s = EmptyString.
Proof. by destruct s. Qed.

Lemma substring_app_l (a b : string) :
  substring 0 (String.length a) (a +:+ b) = a.
Proof.
  induction a as [|c a IH]; sapp; simpl; [apply substring_0_0|by rewrite IH].
Qed.

Lemma substring_all (b : string) : substring 0 (String.length b) b = b.
Proof.
  pose proof (substring_app_l b EmptyString) as H.
  by rewrite app_empty_r in H.
Qed.

Lemma substring_app_r (a b : string) :
  substring (String.length a) (String.length b) (a +:+ b) = b.
Proof. induction a as [|c a IH]; sapp; simpl; [apply substring_all|done]. Qed.

Lemma substring_split (s : string) : ∀ n,
  n ≤ String.length s →
  substring 0 n s +:+ substring n (String.length s - n) s = s.
Proof.
  induction s as [|c s IH]; intros [|n] Hn; simpl in *; try done; try lia.
  - sapp. by rewrite substring_all.
  - sapp. rewrite IH by lia. done.
Qed.

Lemma HasSuffix_app (a suffix : string) :
  str.HasSuffix (a +:+ suffix) suffix = true.
Proof.
  unfold str.HasSuffix, str.slice. rewrite length_app.
  apply andb_true_intro. split; [apply Nat.leb_le; lia|].
  replace (String.length a + String.length suffix - String.length suffix)
    with (String.length a) by lia.
  replace (String.length a + String.length suffix - String.length a)
    with (String.length suffix) by lia.
  rewrite substring_app_r. apply String.eqb_refl.
Qed.

Lemma TrimSuffix_app (a suffix : string) :
  str.TrimSuffix (a +:+ suffix) suffix = a.
Proof.
  unfold str.TrimSuffix. rewrite HasSuffix_app.
  unfold str.slice. rewrite length_app.
  replace (String.length a + String.length suffix - String.length suffix - 0)
    with (String.length a) by lia.
  apply substring_app_l.
Qed.

Lemma HasSuffix_inv (s suffix : string) :
  str.HasSuffix s suffix = true → ∃ a, s = a +:+ suffix.
Proof.
  unfold str.HasSuffix, str.slice.
  intros [Hle Heq%String.eqb_eq]%andb_prop. apply Nat.leb_le in Hle.
  exists (substring 0 (String.length s - String.length suffix) s).
  pose proof (substring_split s (String.length s - String.length suffix)) as H.
  rewrite Heq in H. symmetry. apply H. lia.
Qed.

(** *** Splitting and joining *)

Lemma Split_nonempty (s : string) (sep : ascii) : str.Split s sep ≠ [].
Proof.
  destruct s as [|c s]; simpl; [done|].
  destruct (Ascii.eqb c sep); [done|]. by destruct (str.Split s sep).
Qed.

Lemma Split_nosep (s : string) (sep : ascii) :
  contains sep s = false → str.Split s sep = [s].
Proof.
  induction s as [|c s IH]; simpl; [done|].
  intros [Hc Hs]%orb_false_elim. rewrite Hc. by rewrite IH.
Qed.

Lemma Split_app_sep (a b : string) (sep : ascii) :
  contains sep a = false →
  str.Split (a +:+ String sep b) sep = a :: str.Split b sep.
Proof.
  induction a as [|c a IH]; sapp; simpl.
  - intros _. by rewrite Ascii.eqb_refl.
  - intros [Hc Hs]%orb_false_elim. rewrite Hc. by rewrite IH.
Qed.

Lemma Split_snoc (a n : string) (sep : ascii) :
  contains sep n = false →
  str.Split (a +:+ String sep n) sep = str.Split a sep ++ [n].
Proof.
  intros Hn. induction a as [|c a IH]; sapp; simpl.
  - rewrite Ascii.eqb_refl. by rewrite Split_nosep.
  - destruct (Ascii.eqb c sep); rewrite IH; [done|].
    pose proof (Split_nonempty a sep). by destruct (str.Split a sep).
Qed.

Lemma Split_parts_nosep (s : string) (sep : ascii) :
  Forall (λ x, contains sep x = false) (str.Split s sep).
Proof.
  induction s as [|c s IH]; simpl; [by repeat constructor|].
  destruct (Ascii.eqb c sep) eqn:E; [by constructor|].
  destruct (str.Split s sep) as [|x xs]; [by repeat constructor; simpl; rewrite E|].
  inversion IH; subst. constructor; [|done]. simpl. by rewrite E.
Qed.

Lemma Join_cons (x : string) (l : list string) (sep : string) :
  l ≠ [] → str.Join (x :: l) sep = x +:+ sep +:+ str.Join l sep.
Proof. by destruct l. Qed.

Lemma Join_snoc (l : list string) (x : string) (sep : string) :
  l ≠ [] → str.Join (l ++ [x]) sep = str.Join l sep +:+ sep +:+ x.
Proof.
  induction l as [|y l IH]; [done|]. intros _.
  destruct l as [|z l]; [done|].
  change ((y :: z :: l) ++ [x]) with (y :: ((z :: l) ++ [x])).
  rewrite Join_cons by done. rewrite IH by done.
  rewrite (Join_cons y (z :: l)) by done.
  by rewrite !app_assoc_s.
Qed.

Lemma Split_Join (l : list string) :
  l ≠ [] → Forall (λ x, contains "/" x = false) l →
  str.Split (str.Join l "/") "/" = l.
Proof.
  induction l as [|x l IH]; [done|]. intros _ Hall.
  inversion Hall as [|?? Hx Hl]; subst.
  destruct l as [|y l]; [by apply Split_nosep|].
  rewrite Join_cons by done. sapp.
  rewrite Split_app_sep by done. by rewrite IH.
Qed.
(** ** Lemmas on the matching loop *)

Lemma eqb_decide (a b : string) :
  String.eqb a b = bool_decide (a = b).
Proof.
  destruct (String.eqb_spec a b); symmetry;
    [by apply bool_decide_eq_true | by apply bool_decide_eq_false].
Qed.

Lemma matchLoop_true ms : ∀ rs ps n ps' n',
  length ms = length rs →
  matchLoop ms rs ps n = (true, ps', n') →
  Forall2 segAccepts ms rs
  ∧ ps' = ps ++ captured ms rs ∧ n' = (n + wildcards ms)%nat.
Proof.
  induction ms as [|m ms IH]; intros [|r rs] ps n ps' n' Hlen H;
    simplify_eq/=.
  - split; [constructor|]. by rewrite app_nil_r, Nat.add_0_r.
  - unfold wildcards. rewrite filter_cons.
    rewrite !eqb_decide in H. unfold segAccepts at 1.
    destruct (decide (m = wildcard)) as [->|Hm].
    + rewrite bool_decide_eq_true_2 in H by done.
      case_bool_decide as Hr; [done|].
      apply IH in H as (HF & -> & ->); [|done].
      split_and!.
      * constructor; [|done]. unfold segAccepts. by rewrite decide_True.
      * by rewrite <- app_assoc.
      * unfold wildcards. simpl. lia.
    + rewrite bool_decide_eq_false_2 in H by done.
      case_bool_decide as Hr; [|done]. simpl in H.
      apply IH in H as (HF & -> & ->); [|done].
      split_and!; [|done|done].
      constructor; [|done]. unfold segAccepts. by rewrite decide_False.
Qed.

Lemma matchLoop_complete ms : ∀ rs ps n,
  Forall2 segAccepts ms rs →
  matchLoop ms rs ps n = (true, ps ++ captured ms rs, (n + wildcards ms)%nat).
Proof.
  induction ms as [|m ms IH]; intros rs ps n HF; inversion HF as [|? r ? rs' Hh Ht];
    simplify_eq/=.
  - by rewrite app_nil_r, Nat.add_0_r.
  - unfold wildcards. rewrite filter_cons. rewrite !eqb_decide.
    unfold segAccepts in Hh.
    destruct (decide (m = wildcard)) as [->|Hm].
    + rewrite bool_decide_eq_true_2 by done.
      rewrite bool_decide_eq_false_2 by done.
      rewrite IH by done. rewrite <- app_assoc. simpl.
      do 2 f_equal. unfold wildcards. lia.
    + rewrite bool_decide_eq_false_2 by done. subst r.
      rewrite bool_decide_eq_true_2 by done. simpl.
      by rewrite IH.
Qed.

Lemma wildcards_le ms : (wildcards ms ≤ length ms)%nat.
Proof. unfold wildcards. apply length_filter. Qed.

(** What a match tells about the template: used for the scores. *)
Lemma matchParts_Some (mockParts requestParts params : list string)
    (underscoreCount : nat) :
  matchParts mockParts requestParts = Some (params, underscoreCount) →
  length mockParts = length requestParts
  ∧ underscoreCount = wildcards mockParts.
Proof.
  unfold matchParts.
  destruct (Nat.eqb_spec (length mockParts) (length requestParts))
    as [Hlen|]; [|done]. simpl.
  destruct (matchLoop mockParts requestParts [] 0) as [[[] ps] n] eqn:E;
    [|done].
  intros [= <- <-]. by apply matchLoop_true in E as (_ & _ & ->).
Qed.

(** ** The walk of [findBestMockFile] *)

Lemma Node_nested_ind (P : Node → Prop) :
  (∀ n, P (File n)) →
  (∀ n e ds, Forall P ds → P (Dir n e ds)) →
  ∀ d, P d.
Proof.
  intros Hf Hd. fix IH 1. intros [n|n e ds]; [apply Hf|].
  apply Hd. induction ds as [|d ds IHds]; constructor; [apply IH|apply IHds].
Qed.

Lemma upToError_app (a b : list Item) :
  upToError (a ++ b)
  = match upToError a with
    | (fa, Some e) => (fa, Some e)
    | (fa, None) => let '(fb, e) := upToError b in (fa ++ fb, e)
    end.
Proof.
  induction a as [|[p|m] a IH]; simpl.
  - by destruct (upToError b).
  - rewrite IH. destruct (upToError a) as [fa [e|]]; [done|].
    by destruct (upToError b).
  - done.
Qed.

Lemma walkFn_file b r st path n :
  walkFn b r st path (Some (File n)) None = (consider b r st path, None).
Proof.
  unfold walkFn, consider, candidate. simpl.
  destruct (str.HasSuffix path ".json"); simpl; [|done].
  destruct (matchParts _ _) as [[ps k]|]; [|done].
  by destruct (_ <? _)%Z.
Qed.

Lemma walkFn_dir b r st path n e ds :
  walkFn b r st path (Some (Dir n e ds)) None = (st, None).
Proof. done. Qed.

Lemma walkFn_err b r st path d err :
  walkFn b r st path d (Some err) = (st, Some err).
Proof. done. Qed.

(** The walk with the closure of [findBestMockFile] considers the files
    met before the first failure, in order, and returns that failure. *)
Lemma walkDir_scan b r d : ∀ path st,
  filepath.walkDir (walkFn b r) path d st
  = let '(files, err) := upToError (traversal path d) in
    (foldl (consider b r) st files, PathError <$> err).
Proof.
  induction d as [n|n e ds IH] using Node_nested_ind; intros path st.
  - cbn [filepath.walkDir traversal upToError]. by rewrite walkFn_file.
  - cbn [filepath.walkDir traversal]. rewrite walkFn_dir.
    destruct e as [msg|].
    { by rewrite walkFn_err. }
    simpl app. revert st.
    induction IH as [|d1 ds Hd1 _ IHds]; intros st; [done|].
    rewrite Hd1. rewrite upToError_app.
    destruct (upToError (traversal _ d1)) as [f1 [e1|]]; simpl.
    + done.
    + rewrite IHds.
      destruct (upToError _) as [f2 e2]. simpl.
      by rewrite foldl_app.
Qed.

Lemma findBestMockFile_scan fs baseDir requestPath :
  findBestMockFile fs baseDir requestPath
  = let '(files, err) := upToError (traversalFS fs baseDir) in
    let st := foldl (consider baseDir (str.Split requestPath "/")) noBest files
    in (bestMatch st, bestParams st,
        match err with Some msg => ["Walk error: " +:+ msg] | None => [] end).
Proof.
  unfold findBestMockFile, filepath.WalkDir. destruct fs as [msg|d].
  - cbn [traversalFS upToError]. rewrite walkFn_err.
    rewrite decide_False by (intros [?|?]; done). done.
  - cbn [traversalFS]. rewrite walkDir_scan.
    destruct (upToError _) as [files [e|]]; simpl.
    all: done.
Qed.

(** A traversal without failure is scanned to its end. *)
Lemma upToError_complete (items : list Item) (p : string) :
  (upToError items).2 = None → Met p ∈ items → p ∈ (upToError items).1.
Proof.
  induction items as [|[q|m] items IH]; simpl.
  - by intros _ ?%elem_of_nil.
  - destruct (upToError items) as [files err]. simpl in *.
    intros Herr [[= ->]|Hp]%elem_of_cons; [by left|]. right. by apply IH.
  - done.
Qed.

(** ** The best match of a scan *)

Lemma candidate_spec b r p ps sc :
  candidate b r p = Some (ps, sc)
  ↔ isCandidate b r p ps ∧ sc = specificity (mockPartsOf b p).
Proof.
  unfold candidate, isCandidate, specificity.
  destruct (str.HasSuffix p ".json"); [|by split; [|intros [[] _]]].
  destruct (matchParts _ r) as [[ps' n]|] eqn:E;
    [|by split; [|intros [[_ ?] _]]].
  apply matchParts_Some in E as (Hlen & ->). rewrite Hlen. simpl.
  split.
  - by intros [= <- <-].
  - by intros [[_ [= <-]] ->].
Qed.

Lemma candidate_score_nonneg b r p ps sc :
  candidate b r p = Some (ps, sc) → (0 ≤ sc)%Z.
Proof.
  intros [_ ->]%candidate_spec. unfold specificity.
  pose proof (wildcards_le (mockPartsOf b p)). lia.
Qed.

(** The fold of the closure over the files keeps the first file of highest
    score, among those that beat the initial score. *)
Lemma foldl_consider b r files : ∀ st,
  let st' := foldl (consider b r) st files in
  (st' = st
   ∧ ∀ p ps sc, p ∈ files → candidate b r p = Some (ps, sc) →
       (sc ≤ bestScore st)%Z)
  ∨ (∃ i : nat, files !! i = Some (bestMatch st')
       ∧ candidate b r (bestMatch st') = Some (bestParams st', bestScore st')
       ∧ (bestScore st < bestScore st')%Z
       ∧ ∀ (j : nat) p ps sc,
           files !! j = Some p → candidate b r p = Some (ps, sc) →
           (sc ≤ bestScore st')%Z ∧ (j < i → (sc < bestScore st')%Z)).
Proof.
  induction files as [|p files IH]; intros st; simpl.
  { left. split; [done|]. intros ??? []%elem_of_nil. }
  assert (consider b r st p = st
            ∧ (∀ ps sc, candidate b r p = Some (ps, sc) → (sc ≤ bestScore st)%Z)
          ∨ ∃ ps sc, candidate b r p = Some (ps, sc) ∧ (bestScore st < sc)%Z
              ∧ consider b r st p = mkBest p ps sc) as [[Hst Hle]|Hnew].
  { unfold consider. destruct (candidate b r p) as [[ps sc]|]; [|by left].
    destruct (Z.ltb_spec (bestScore st) sc).
    - right; eauto.
    - left. split; [done|]. by intros ?? [= <- <-]. }
  - rewrite Hst. destruct (IH st) as [[Heq Hall]|(i & Hi & Hc & Hlt & Hall)].
    + left. split; [done|]. intros q ps sc [->|Hq]%elem_of_cons; eauto.
    + right. exists (S i). split_and!; [done..|].
      intros [|j] q ps sc Hq Hcq; simpl in Hq.
      * injection Hq as <-. apply Hle in Hcq. lia.
      * destruct (Hall j q ps sc Hq Hcq). split; [done|lia].
  - destruct Hnew as (ps & sc & Hc & Hlt & Hst). rewrite Hst.
    destruct (IH (mkBest p ps sc)) as [[Heq Hall]|(i & Hi & Hc' & Hlt' & Hall)];
      simpl in *.
    + right. exists 0. rewrite Heq. simpl. split_and!; [done..|].
      intros [|j] q ps' sc' Hq Hcq; simpl in Hq.
      * injection Hq as <-. rewrite Hc in Hcq. injection Hcq as <- <-. lia.
      * split; [|lia]. eapply Hall; [|done]. by eapply list_elem_of_lookup_2.
    + right. exists (S i). split_and!; [done|done|lia|].
      intros [|j] q ps' sc' Hq Hcq; simpl in Hq.
      * injection Hq as <-. rewrite Hc in Hcq. injection Hcq as <- <-. lia.
      * destruct (Hall j q ps' sc' Hq Hcq). split; [done|lia].
Qed.

(** ** Cleaned paths *)

Lemma entryName_nosep n : entryName n → contains "/" n = false.
Proof. by intros (_ & _ & _ & ?). Qed.

Lemma cleanStack_nil r : cleanStack r [].
Proof. exists [], []. by repeat split. Qed.

Lemma cleanStack_push r out n :
  entryName n → cleanStack r out → cleanStack r (n :: out).
Proof.
  intros Hn (ns & dots & -> & Hns & Hd & Hr).
  exists (n :: ns), dots. split_and!; [done| |done..]. by constructor.
Qed.

Lemma cleanStack_elem r out x :
  cleanStack r out → x ∈ out →
  x ≠ EmptyString ∧ x ≠ "." ∧ contains "/" x = false.
Proof.
  intros (ns & dots & -> & Hns & Hd & _) [Hx|Hx]%elem_of_app.
  - rewrite Forall_forall in Hns.
    destruct (Hns x Hx) as (? & ? & _ & ?). done.
  - rewrite Forall_forall in Hd. by rewrite (Hd x Hx).
Qed.

(** The element at any depth of the stack: an entry name, or a [".."]
    above nothing but [".."] elements. *)
Lemma cleanStack_at r a e b :
  cleanStack r (a ++ e :: b) →
  entryName e ∨ e = ".." ∧ r = false ∧ Forall (λ x, x = "..") b.
Proof.
  intros (ns & dots & Heq & Hns & Hd & Hr).
  assert (dots ≠ [] → r = false) as Hr'.
  { intros ?. destruct r; [|done]. by specialize (Hr eq_refl). }
  symmetry in Heq. apply app_eq_app in Heq as [l [[-> Hl]|[-> ->]]].
  - destruct l as [|x l]; simpl in Hl.
    + subst dots. inversion Hd; subst. right. split_and!; [done| |done].
      by apply Hr'.
    + injection Hl as <- _. left.
      apply Forall_app in Hns as [_ Hns]. by inversion Hns.
  - apply Forall_app in Hd as [_ Hd]. inversion Hd; subst.
    right. split_and!; [done| |done].
    apply Hr'. by destruct l.
Qed.

Lemma cleanStep_entry r out n :
  entryName n → filepath.cleanStep r out n = n :: out.
Proof.
  intros (H1 & H2 & H3 & _). unfold filepath.cleanStep.
  rewrite decide_False by (intros [?|?]; done).
  by rewrite decide_False.
Qed.

Lemma cleanStep_keep r a e b :
  cleanStack r (a ++ e :: b) → filepath.cleanStep r b e = e :: b.
Proof.
  intros [He|(-> & -> & Hb)]%cleanStack_at; [by apply cleanStep_entry|].
  unfold filepath.cleanStep.
  rewrite decide_False by (intros [?|?]; done).
  rewrite decide_True by done.
  destruct b as [|top b]; [done|].
  inversion Hb; subst. by rewrite decide_True.
Qed.

Lemma cleanStep_stack r out e :
  contains "/" e = false →
  cleanStack r out → cleanStack r (filepath.cleanStep r out e).
Proof.
  intros He Hout. unfold filepath.cleanStep.
  destruct (decide (e = EmptyString ∨ e = ".")) as [|Hne]; [done|].
  destruct (decide (e = "..")) as [->|Hdd].
  - destruct out as [|top out].
    + destruct r; [apply cleanStack_nil|].
      exists [], [".."]. split_and!; by repeat constructor.
    + destruct Hout as (ns & dots & Heq & Hns & Hd & Hr).
      destruct (decide (top = "..")) as [->|Htop].
      * destruct ns as [|n ns].
        -- simpl in Heq. subst dots.
           exists [], (".." :: ".." :: out).
           split_and!; [done|done|by constructor|].
           intros ->. by specialize (Hr eq_refl).
        -- injection Heq as <- _. inversion Hns as [|?? Hn _].
           by destruct Hn as (_ & _ & ? & _).
      * destruct ns as [|n ns].
        -- simpl in Heq. subst dots. by inversion Hd.
        -- injection Heq as <- ->. inversion Hns; subst.
           by exists ns, dots.
  - apply cleanStack_push; [|done].
    unfold entryName. split_and!; [| |done..].
    + intros ->. apply Hne. by left.
    + intros ->. apply Hne. by right.
Qed.

Lemma fold_cleanStep_stack r comps : ∀ out,
  Forall (λ x, contains "/" x = false) comps →
  cleanStack r out →
  cleanStack r (foldl (filepath.cleanStep r) out comps).
Proof.
  induction comps as [|e comps IH]; intros out Hall Hout; [done|].
  inversion Hall; subst. simpl. apply IH; [done|]. by apply cleanStep_stack.
Qed.

Lemma kept_stack path : cleanStack (filepath.rooted path) (kept path).
Proof.
  apply fold_cleanStep_stack; [apply Split_parts_nosep|apply cleanStack_nil].
Qed.

Lemma Clean_render path :
  filepath.Clean path = render (filepath.rooted path) (rev (kept path)).
Proof. done. Qed.

(** [Clean] keeps the elements of a cleaned path as they are. *)
Lemma fold_cleanStep_clean r l1 : ∀ l0,
  cleanStack r (rev (l0 ++ l1)) →
  foldl (filepath.cleanStep r) (rev l0) l1 = rev (l0 ++ l1).
Proof.
  induction l1 as [|e l1 IH]; intros l0 Hf.
  { by rewrite app_nil_r. }
  rewrite (cons_middle e), app_assoc in Hf |- *.
  rewrite <- IH by done. simpl. f_equal.
  rewrite rev_app_distr. simpl.
  rewrite rev_app_distr in Hf. rewrite rev_app_distr in Hf. simpl in Hf.
  by eapply cleanStep_keep.
Qed.

Lemma cleanStack_push_names r names : ∀ out,
  Forall entryName names → cleanStack r out →
  cleanStack r (rev names ++ out).
Proof.
  induction names as [|n names IH]; intros out Hn Hout; [done|].
  inversion Hn; subst. simpl. rewrite <- app_assoc. simpl.
  apply IH; [done|]. by apply cleanStack_push.
Qed.

Lemma Join_ne_empty (l : list string) (x : string) :
  x ≠ EmptyString → str.Join (l ++ [x]) "/" ≠ EmptyString.
Proof.
  intros Hx. destruct l as [|y l]; [done|].
  rewrite Join_snoc by done. intros H.
  apply (f_equal String.length) in H. rewrite !length_app in H.
  simpl in H. lia.
Qed.

Lemma snoc_exists {A} (l : list A) : l ≠ [] → ∃ l' x, l = l' ++ [x].
Proof.
  destruct l as [|y l _] using rev_ind; [done|]. intros _. eauto.
Qed.

Lemma render_list r l :
  l ≠ [] → (∀ x, x ∈ l → x ≠ EmptyString) →
  render r l = (if r then "/" else EmptyString) +:+ str.Join l "/".
Proof.
  intros Hl Hne. unfold render.
  apply snoc_exists in Hl as (l' & x & ->).
  rewrite decide_False; [done|].
  intros H. apply (f_equal String.length) in H. rewrite length_app in H.
  assert (String.length (str.Join (l' ++ [x]) "/") = 0) as H0
    by (simpl in H; lia).
  apply (Join_ne_empty l' x); [apply Hne; set_solver|].
  by destruct (str.Join (l' ++ [x]) "/").
Qed.

Lemma elem_of_rev_2 {A} (l : list A) (x : A) : x ∈ l → x ∈ rev l.
Proof. rewrite !list_elem_of_In. apply in_rev. Qed.

Lemma stack_elem r l x :
  cleanStack r (rev l) → x ∈ l →
  x ≠ EmptyString ∧ x ≠ "." ∧ contains "/" x = false.
Proof.
  intros Hs Hx. apply (cleanStack_elem r (rev l)); [done|].
  by apply elem_of_rev_2.
Qed.

Lemma stack_nosep r l :
  cleanStack r (rev l) → Forall (λ x, contains "/" x = false) l.
Proof. intros Hs. apply Forall_forall. intros x Hx. by eapply stack_elem. Qed.

Lemma stack_render r l :
  cleanStack r (rev l) → l ≠ [] →
  render r l = (if r then "/" else EmptyString) +:+ str.Join l "/".
Proof.
  intros Hs Hl. apply render_list; [done|].
  intros x Hx. by eapply stack_elem.
Qed.

Lemma rooted_render r l :
  cleanStack r (rev l) → filepath.rooted (render r l) = r.
Proof.
  intros Hs. destruct (decide (l = [])) as [->|Hl]; [by destruct r|].
  rewrite stack_render by done.
  destruct r; [done|]. rewrite app_empty_l.
  destruct l as [|x l']; [done|].
  destruct (stack_elem false (x :: l') x) as (Hx & _ & Hsep);
    [done|set_solver|].
  destruct x as [|c x]; [done|].
  simpl in Hsep. apply orb_false_elim in Hsep as [Hc _].
  destruct l'; [done|]. by rewrite Join_cons.
Qed.

Lemma Split_render r l :
  cleanStack r (rev l) → l ≠ [] →
  str.Split (render r l) "/" = (if r then [EmptyString] else []) ++ l.
Proof.
  intros Hs Hl. rewrite stack_render by done.
  destruct r; sapp; simpl; rewrite Split_Join; eauto using stack_nosep.
Qed.

Lemma kept_render r l : cleanStack r (rev l) → kept (render r l) = rev l.
Proof.
  intros Hs. unfold kept. rewrite rooted_render by done.
  destruct (decide (l = [])) as [->|Hl]; [by destruct r|].
  rewrite Split_render by done.
  destruct r; simpl; apply (fold_cleanStep_clean _ l []); done.
Qed.

Lemma Clean_render_id r l :
  cleanStack r (rev l) → filepath.Clean (render r l) = render r l.
Proof.
  intros Hs.
  by rewrite Clean_render, kept_render, rooted_render, rev_involutive.
Qed.

Lemma render_ne_dot r l : cleanStack r (rev l) → l ≠ [] → render r l ≠ ".".
Proof.
  intros Hs Hl H. pose proof (Split_render r l Hs Hl) as HS. rewrite H in HS.
  simpl in HS. destruct r; simpl in HS.
  - by injection HS.
  - assert ("." ∈ l) as Hd by (rewrite <- HS; set_solver).
    by eapply stack_elem in Hd as (_ & ? & _).
Qed.

Lemma render_ne_empty r l : render r l ≠ EmptyString.
Proof.
  unfold render. case_decide as H; [done|]. done.
Qed.

Lemma elements_render r l :
  cleanStack r (rev l) → l ≠ [] →
  filepath.elements (render r l) = (if r then [EmptyString] else []) ++ l.
Proof.
  intros Hs Hl. unfold filepath.elements.
  rewrite decide_False by apply render_ne_empty.
  change filepath.Separator with "/"%char.
  rewrite Split_render by done.
  rewrite decide_False; [done|].
  apply snoc_exists in Hl as (l' & x & El).
  rewrite El, app_assoc, last_snoc. intros [= ->].
  destruct (stack_elem r l EmptyString) as [? _];
    [done|rewrite El; set_solver|done].
Qed.

(** The base path as [Rel] scans it. *)
Lemma elements_base r l :
  cleanStack r (rev l) →
  let base := render r l in
  let base' := if decide (base = ".") then EmptyString else base in
  filepath.rooted base' = r
  ∧ filepath.elements base' = (if r then [EmptyString] else []) ++ l.
Proof.
  intros Hs. destruct (decide (l = [])) as [->|Hl]; [by destruct r|].
  simpl. rewrite decide_False by by apply render_ne_dot.
  split; [by apply rooted_render|by apply elements_render].
Qed.

Lemma differ_prefix (a b : list string) :
  filepath.differ a (a ++ b) = ([], b, false).
Proof.
  induction a as [|x a IH]; simpl; [by destruct b|].
  by rewrite decide_True.
Qed.

(** A path below a base directory, relative to it. *)
Lemma Rel_below (baseDir : string) (names : list string) :
  names ≠ [] → Forall entryName names →
  filepath.Rel baseDir
    (render (filepath.rooted baseDir) (rev (kept baseDir) ++ names))
  = (str.Join names "/", None).
Proof.
  intros Hne Hnames.
  set (r := filepath.rooted baseDir). set (l0 := rev (kept baseDir)).
  assert (cleanStack r (rev l0)) as H0.
  { subst l0. rewrite rev_involutive. apply kept_stack. }
  assert (cleanStack r (rev (l0 ++ names))) as H1.
  { rewrite rev_app_distr. by apply cleanStack_push_names. }
  assert (l0 ++ names ≠ []) as Hne1 by by destruct l0, names.
  unfold filepath.Rel.
  rewrite (Clean_render_id _ _ H1), Clean_render. fold r l0.
  rewrite decide_False.
  2:{ intros Heq. apply (f_equal kept) in Heq.
      rewrite !kept_render in Heq by done.
      apply (f_equal (@rev _)) in Heq. rewrite !rev_involutive in Heq.
      rewrite <- (app_nil_r l0) in Heq at 2.
      apply app_inv_head in Heq. done. }
  destruct (elements_base r l0 H0) as [Hr He]. simpl in Hr, He.
  rewrite Hr, He. rewrite (rooted_render _ _ H1).
  rewrite (elements_render _ _ H1 Hne1).
  rewrite eqb_reflx. simpl negb. cbv iota.
  rewrite app_assoc, differ_prefix. done.
Qed.

(** ** The path of a file and its route template *)

Lemma rooted_app (path s : string) :
  path ≠ EmptyString → filepath.rooted (path +:+ s) = filepath.rooted path.
Proof. by destruct path. Qed.

Lemma Join_entry (path n : string) :
  path ≠ EmptyString → entryName n →
  filepath.Join [path; n]
  = render (filepath.rooted path) (rev (kept path) ++ [n]).
Proof.
  intros Hp Hn. simpl. rewrite decide_False by done.
  rewrite Clean_render. unfold kept.
  change (String.concat "/" [path; n]) with (path +:+ String "/" n).
  rewrite rooted_app by done. f_equal.
  change filepath.Separator with "/"%char.
  change (path +:+ "/" +:+ n) with (path +:+ String "/" n).
  rewrite Split_snoc by by apply entryName_nosep.
  rewrite foldl_app. simpl. by rewrite cleanStep_entry.
Qed.

Lemma walkPath_snoc root names n :
  walkPath root (names ++ [n]) = filepath.Join [walkPath root names; n].
Proof. unfold walkPath. by rewrite foldl_app. Qed.

Lemma walkPath_render (root : string) (names : list string) :
  root ≠ EmptyString → Forall entryName names → names ≠ [] →
  walkPath root names
  = render (filepath.rooted root) (rev (kept root) ++ names).
Proof.
  intros Hroot. induction names as [|n names IH] using rev_ind; [done|].
  intros [Hnames Hn]%Forall_app _. inversion Hn as [|?? Hn' _]; subst.
  rewrite walkPath_snoc.
  destruct (decide (names = [])) as [->|Hne].
  { by apply Join_entry. }
  rewrite IH by done.
  assert (cleanStack (filepath.rooted root)
            (rev (rev (kept root) ++ names))) as Hs.
  { rewrite rev_app_distr, rev_involutive.
    apply cleanStack_push_names; [done|apply kept_stack]. }
  rewrite Join_entry by (done || apply render_ne_empty).
  rewrite rooted_render, kept_render by done.
  by rewrite rev_involutive, <- app_assoc.
Qed.

Lemma Join_snoc_suffix (l : list string) (a b : string) :
  str.Join (l ++ [a +:+ b]) "/" = str.Join (l ++ [a]) "/" +:+ b.
Proof.
  destruct (decide (l = [])) as [->|Hl]; [done|].
  rewrite !Join_snoc by done. by rewrite !app_assoc_s.
Qed.

Lemma render_snoc_suffix r (l : list string) (a b : string) :
  a ≠ EmptyString →
  render r (l ++ [a +:+ b]) = render r (l ++ [a]) +:+ b.
Proof.
  intros Ha. unfold render.
  assert (a +:+ b ≠ EmptyString) as Hab by by destruct a.
  pose proof (Join_ne_empty l _ Ha) as H1.
  pose proof (Join_ne_empty l _ Hab) as H2.
  rewrite !decide_False.
  - by rewrite Join_snoc_suffix, app_assoc_s.
  - destruct r; [done|]. by rewrite app_empty_l.
  - destruct r; [done|]. by rewrite app_empty_l.
Qed.

Lemma render_snoc r (l : list string) (x : string) :
  cleanStack r (rev l) → l ≠ [] → x ≠ EmptyString →
  render r (l ++ [x]) = render r l +:+ String "/" x.
Proof.
  intros Hs Hl Hx. rewrite (stack_render r l) by done.
  unfold render. rewrite decide_False.
  - rewrite Join_snoc by done. by rewrite !app_assoc_s.
  - pose proof (Join_ne_empty l _ Hx).
    destruct r; [done|]. by rewrite app_empty_l.
Qed.

(** What the closure derives for a file below the base directory. *)
Lemma mockPartsOf_walkPath (baseDir : string) (dirs : list string)
    (stem : string) :
  baseDir ≠ EmptyString → Forall entryName dirs → entryName stem →
  ¬ (dirs = [] ∧ stem = "index") →
  mockPartsOf baseDir (walkPath baseDir (dirs ++ [stem +:+ ".json"]))
  = if decide (stem = "index") then dirs else dirs ++ [stem].
Proof.
  intros Hbase Hdirs Hstem Hroot.
  assert (entryName (stem +:+ ".json")) as Hname.
  { destruct Hstem as (H1 & H2 & H3 & H4). unfold entryName.
    assert (∀ s, contains "/" (s +:+ ".json") = contains "/" s) as Hc.
    { intros s. induction s as [|c s IH]; sapp; [done|].
      simpl. by rewrite IH. }
    rewrite Hc. split_and!; [| | |done].
    - by destruct stem.
    - destruct stem as [|? [|]]; done.
    - destruct stem as [|? [|? [|]]]; done. }
  set (r := filepath.rooted baseDir). set (l0 := rev (kept baseDir)).
  assert (cleanStack r (rev l0)) as H0.
  { subst l0. rewrite rev_involutive. apply kept_stack. }
  assert (∀ names, Forall entryName names → cleanStack r (rev (l0 ++ names)))
    as Hstack.
  { intros names Hn. rewrite rev_app_distr. by apply cleanStack_push_names. }
  rewrite walkPath_render; [|done| |by destruct dirs].
  2:{ apply Forall_app. split; [done|by constructor]. }
  fold r l0. unfold mockPartsOf.
  rewrite app_assoc, render_snoc_suffix by apply Hstem.
  rewrite TrimSuffix_app.
  assert (∀ ds, ds ≠ [] → Forall entryName ds →
            str.Split (filepath.Rel baseDir (render r (l0 ++ ds))).1 "/" = ds)
    as Hrel.
  { intros ds Hne Hds. subst r l0. rewrite Rel_below by done. simpl.
    apply Split_Join; [done|].
    eapply Forall_impl; [done|]. apply entryName_nosep. }
  destruct (decide (stem = "index")) as [->|Hidx].
  - assert (dirs ≠ []) as Hne by (intros ->; by apply Hroot).
    rewrite render_snoc; [|by apply Hstack|by destruct l0, dirs|done].
    rewrite HasSuffix_app, TrimSuffix_app. by apply Hrel.
  - destruct (str.HasSuffix _ "/index") eqn:Hsuf.
    + exfalso. apply HasSuffix_inv in Hsuf as [a Ha].
      apply (f_equal (λ s, last (str.Split s "/"))) in Ha.
      change (a +:+ "/index") with (a +:+ String "/" "index") in Ha.
      rewrite Split_snoc, last_snoc in Ha by done.
      rewrite Split_render in Ha.
      * rewrite !app_assoc, last_snoc in Ha. by injection Ha.
      * rewrite <- app_assoc. apply Hstack.
        apply Forall_app. split; [done|by constructor].
      * by destruct (l0 ++ dirs).
    + rewrite <- app_assoc. apply Hrel; [by destruct dirs|].
      apply Forall_app. split; [done|by constructor].
Qed.

(** What the specification derives for the same file. *)
Lemma specRouteTemplate_names (dirs : list string) (stem : string) :
  Forall entryName dirs → entryName stem →
  specRouteTemplate (str.Join (dirs ++ [stem +:+ ".json"]) "/")
  = if decide (stem = "index") then dirs else dirs ++ [stem].
Proof.
  intros Hdirs Hstem. unfold specRouteTemplate.
  rewrite Join_snoc_suffix, TrimSuffix_app.
  rewrite Split_Join.
  - rewrite last_snoc.
    destruct (decide (stem = "index")) as [->|Hne].
    + rewrite decide_True by done. apply removelast_last.
    + rewrite decide_False; [done|]. by intros [= ->].
  - by destruct dirs.
  - apply Forall_app. split.
    + eapply Forall_impl; [done|]. apply entryName_nosep.
    + constructor; [by apply entryName_nosep|done].
Qed.

(** The paths of the files met by the traversal are the paths that
    [walkPath] builds from the names of the entries that lead to them. *)
Lemma traversal_walkPath (d : Node) : ∀ (root p : string),
  Met p ∈ traversal root d →
  ∃ names, leadsToFile d names ∧ p = walkPath root names.
Proof.
  induction d as [n|n e ds IH] using Node_nested_ind; intros root p Hp.
  - apply list_elem_of_singleton in Hp as [= ->]. exists []. split;
      [constructor|done].
  - cbn [traversal] in Hp. apply elem_of_app in Hp as [Hp|Hp].
    { destruct e; [|by apply elem_of_nil in Hp].
      by apply list_elem_of_singleton in Hp. }
    assert (∃ d1, d1 ∈ ds
                  ∧ Met p ∈ traversal (filepath.Join [root; Name d1]) d1)
      as (d1 & Hd1 & Hin).
    { clear IH. induction ds as [|d0 ds IHds]; [by apply elem_of_nil in Hp|].
      apply elem_of_app in Hp as [Hp|Hp].
      - exists d0. split; [left|done].
      - destruct (IHds Hp) as (d1 & ? & ?). exists d1. split; [by right|done]. }
    rewrite Forall_forall in IH.
    destruct (IH d1 Hd1 _ _ Hin) as (names & Hl & ->).
    exists (Name d1 :: names). split; [by econstructor|done].
Qed.

(** ** The expression of the Template Expander *)

Lemma literal_sound lit : ∀ s r,
  regexp.literal lit s = Some r → s = lit +:+ r.
Proof.
  induction lit as [|a lit IH]; intros s r H; simpl in H.
  - by injection H as ->.
  - destruct s as [|b s]; [done|].
    destruct (Ascii.eqb_spec a b) as [->|]; [|done].
    sapp. f_equal. by apply IH.
Qed.

Lemma literal_cons a lit b s :
  regexp.literal (String a lit) (String b s)
  = if Ascii.eqb a b then regexp.literal lit s else None.
Proof. done. Qed.

Lemma literal_app lit r : regexp.literal lit (lit +:+ r) = Some r.
Proof.
  induction lit as [|a lit IH]; sapp; simpl; [done|].
  by rewrite Ascii.eqb_refl.
Qed.

Lemma digits_app_stop x R :
  stops R →
  regexp.digits (x +:+ R) = ((regexp.digits x).1, (regexp.digits x).2 +:+ R).
Proof.
  intros HR. induction x as [|c x IH]; sapp; simpl.
  - by rewrite HR.
  - destruct (strconv.isDigit c); [|done].
    rewrite IH. by destruct (regexp.digits x).
Qed.

Lemma digits_sound s : ∀ ds r,
  regexp.digits s = (ds, r) →
  s = ds +:+ r ∧ regexp.digits ds = (ds, EmptyString) ∧ stops r.
Proof.
  unfold stops.
  induction s as [|c s IH]; intros ds r H; simpl in H.
  - by injection H as <- <-.
  - destruct (strconv.isDigit c) eqn:Ec.
    + destruct (regexp.digits s) as [ds' r'] eqn:E.
      injection H as <- <-. destruct (IH _ _ eq_refl) as (-> & Hd & Hr).
      split_and!; [done| |done]. simpl. by rewrite Ec, Hd.
    + injection H as <- <-. split_and!; [done..|]. simpl. by rewrite Ec.
Qed.

Lemma matchAt_sound s g rest :
  regexp.matchAt s = Some (g, rest) →
  s = regexp.matched g +:+ rest ∧ isLiteral g.
Proof.
  unfold regexp.matchAt, regexp.matched.
  destruct (regexp.literal "{path." s) as [s1|] eqn:El; [|done].
  apply literal_sound in El as ->.
  destruct (regexp.digits s1) as [[|c ds] r] eqn:Ed; [done|].
  destruct r as [|x r]; [done|].
  destruct (Ascii.eqb_spec x "}") as [->|Hx].
  - intros [= <- <-]. apply digits_sound in Ed as (-> & Hd & _).
    split; [by rewrite !app_assoc_s|]. by split.
  - intros H. exfalso. apply Hx.
    destruct x as [[] [] [] [] [] [] [] []]; try done.
Qed.

Lemma matchAt_matched g rest :
  isLiteral g → regexp.matchAt (regexp.matched g +:+ rest) = Some (g, rest).
Proof.
  intros [Hne Hd]. unfold regexp.matchAt, regexp.matched.
  rewrite !app_assoc_s, literal_app.
  rewrite digits_app_stop by done. rewrite Hd. simpl.
  by destruct g.
Qed.

Lemma boundary_stops R : boundary R → stops R.
Proof. by intros [->|[R' ->]]. Qed.

Lemma literal_boundary lit : ∀ x R,
  contains "{" lit = false → boundary R →
  regexp.literal lit (x +:+ R) = (λ r, r +:+ R) <$> regexp.literal lit x.
Proof.
  induction lit as [|a lit IH]; intros x R Hlit HR; simpl; [done|].
  simpl in Hlit. apply orb_false_elim in Hlit as [Ha Hlit].
  destruct x as [|b x]; sapp.
  - destruct HR as [->|[R' ->]]; [done|]. by rewrite Ha.
  - destruct (Ascii.eqb a b); [by apply IH|done].
Qed.

Lemma matchAt_boundary c t R :
  boundary R →
  regexp.matchAt (String c t +:+ R)
  = (λ m, (m.1, m.2 +:+ R)) <$> regexp.matchAt (String c t).
Proof.
  intros HR. unfold regexp.matchAt. sapp.
  rewrite !(literal_cons "{" "path.").
  destruct (Ascii.eqb "{" c); [|done].
  rewrite literal_boundary by done.
  destruct (regexp.literal "path." t) as [s1|]; [|done]. simpl.
  rewrite digits_app_stop by by apply boundary_stops.
  destruct (regexp.digits s1) as [[|d ds] r]; [done|]. simpl.
  destruct r as [|x r]; sapp.
  - by destruct HR as [->|[R' ->]].
  - by destruct x as [[] [] [] [] [] [] [] []].
Qed.

Lemma tokenFree_hasToken t : tokenFree t ↔ hasToken t = false.
Proof.
  split.
  - induction t as [|c t IH]; intros Hfree; [done|]. simpl.
    apply orb_false_intro.
    + apply bool_decide_eq_false. intros [[g rest] Hm].
      apply matchAt_sound in Hm as [Hm Hlit].
      by apply (Hfree EmptyString g rest).
    + apply IH. intros a ds b Hlit ->.
      by apply (Hfree (String c a) ds b).
  - intros Hno a ds b Hlit ->. revert Hno.
    induction a as [|c a IH]; sapp.
    + unfold token. change ("{path." +:+ ds +:+ "}") with (regexp.matched ds).
      destruct (regexp.matched ds +:+ b) as [|c s] eqn:E; [done|].
      simpl. rewrite <- E, matchAt_matched by done.
      by rewrite bool_decide_eq_true_2.
    + simpl. intros [_ ?]%orb_false_elim. by apply IH.
Qed.

(** ** The scan of [ReplaceAllStringFunc] *)

Lemma replaceFrom_skip repl pre s :
  regexp.replaceFrom repl (pre +:+ s) (String.length pre)
  = regexp.replaceFrom repl s 0.
Proof.
  induction pre as [|c pre IH]; sapp; simpl; [|done].
  by destruct s.
Qed.

Lemma replaceFrom_text repl t R :
  hasToken t = false → boundary R →
  regexp.replaceFrom repl (t +:+ R) 0 = t +:+ regexp.replaceFrom repl R 0.
Proof.
  intros Ht HR. induction t as [|c t IH]; [done|].
  simpl in Ht. apply orb_false_elim in Ht as [Hm Ht].
  apply bool_decide_eq_false in Hm.
  pose proof (matchAt_boundary c t R HR) as Hb.
  destruct (regexp.matchAt (String c t)) as [m|] eqn:E;
    [by destruct Hm|]. simpl in Hb.
  sapp. cbn [regexp.replaceFrom]. rewrite Hb. by rewrite IH.
Qed.

Lemma replaceFrom_0 repl c s :
  regexp.replaceFrom repl (String c s) 0
  = match regexp.matchAt (String c s) with
    | Some (group, _) =>
        repl (regexp.matched group)
        +:+ regexp.replaceFrom repl s
              (String.length (regexp.matched group) - 1)
    | None => String c (regexp.replaceFrom repl s 0)
    end.
Proof. done. Qed.

Lemma replaceFrom_token repl g R :
  isLiteral g →
  regexp.replaceFrom repl (regexp.matched g +:+ R) 0
  = repl (regexp.matched g) +:+ regexp.replaceFrom repl R 0.
Proof.
  intros Hg. pose proof (matchAt_matched g R Hg) as Hm.
  assert (regexp.matched g +:+ R
          = String "{" (("path." +:+ g +:+ "}") +:+ R)) as HE.
  { unfold regexp.matched. by rewrite !app_assoc_s. }
  rewrite HE in Hm |- *. rewrite replaceFrom_0, Hm. f_equal.
  replace (String.length (regexp.matched g) - 1)
    with (String.length ("path." +:+ g +:+ "}")).
  - apply replaceFrom_skip.
  - unfold regexp.matched. rewrite !length_app. simpl. lia.
Qed.

(** ** The closure of [replacePathParams] on a token *)

Lemma FindStringSubmatch_unfold s :
  regexp.FindStringSubmatch s
  = match regexp.matchAt s with
    | Some (group, _) => [regexp.matched group; group]
    | None =>
        match s with
        | String _ s' => regexp.FindStringSubmatch s'
        | EmptyString => []
        end
    end.
Proof. by destruct s. Qed.

Lemma digits_all g :
  regexp.digits g = (g, EmptyString) →
  Forall (λ c, strconv.isDigit c = true) (list_ascii_of_string g).
Proof.
  induction g as [|c g IH]; simpl; [constructor|].
  destruct (strconv.isDigit c) eqn:Ec; [|done].
  destruct (regexp.digits g) as [ds r]. intros [= -> ->].
  constructor; [done|by apply IH].
Qed.

Lemma digitVal_range c :
  strconv.isDigit c = true → (0 ≤ strconv.digitVal c ≤ 9)%Z.
Proof.
  unfold strconv.isDigit, strconv.digitVal.
  intros [?%Nat.leb_le ?%Nat.leb_le]%andb_prop. lia.
Qed.

Lemma parseDigits_fold g : ∀ acc,
  Forall (λ c, strconv.isDigit c = true) (list_ascii_of_string g) →
  strconv.parseDigits g acc
  = Some (fold_left (λ acc c, (acc * 10 + strconv.digitVal c)%Z)
            (list_ascii_of_string g) acc).
Proof.
  induction g as [|c g IH]; intros acc Hall; simpl; [done|].
  simpl in Hall. inversion Hall as [|?? Hc Hg]; subst.
  rewrite Hc. by apply IH.
Qed.

Lemma fold_digits_nonneg l : ∀ acc,
  Forall (λ c, strconv.isDigit c = true) l → (0 ≤ acc)%Z →
  (0 ≤ fold_left (λ acc c, (acc * 10 + strconv.digitVal c)%Z) l acc)%Z.
Proof.
  induction l as [|c l IH]; intros acc Hall Hacc; simpl; [done|].
  inversion Hall as [|?? Hc Hl]; subst. apply IH; [done|].
  pose proof (digitVal_range c Hc). lia.
Qed.

Lemma decimal_nonneg g : isLiteral g → (0 ≤ decimal g)%Z.
Proof.
  intros [_ Hd]. apply fold_digits_nonneg; [by apply digits_all|done].
Qed.

Lemma Atoi_literal g :
  isLiteral g →
  strconv.Atoi g
  = if (decimal g <=? strconv.maxInt)%Z then Some (decimal g) else None.
Proof.
  intros [Hne Hd]. pose proof (digits_all g Hd) as Hall.
  unfold strconv.Atoi, decimal.
  destruct g as [|c g]; [done|].
  inversion Hall as [|?? Hc _]; subst.
  assert (match String c g with
          | String "-" s' => (true, s')
          | String "+" s' => (false, s')
          | _ => (false, String c g)
          end = (false, String c g)) as ->.
  { by destruct c as [[] [] [] [] [] [] [] []]. }
  rewrite decide_False by done.
  by rewrite parseDigits_fold.
Qed.

Lemma closure_token (params : list string) (g : string) :
  isLiteral g →
  (Z.of_nat (length params) ≤ strconv.maxInt)%Z →
  (let idxStr := nth 1 (regexp.FindStringSubmatch (regexp.matched g))
                   EmptyString in
   if negb (String.eqb idxStr EmptyString) then
     match strconv.Atoi idxStr with
     | Some idx =>
         if (idx <? Z.of_nat (length params))%Z
         then nth (Z.to_nat idx) params EmptyString
         else regexp.matched g
     | None => regexp.matched g
     end
   else regexp.matched g)
  = expandToken params g.
Proof.
  intros Hg Hlen.
  rewrite FindStringSubmatch_unfold.
  pose proof (matchAt_matched g EmptyString Hg) as Hm.
  rewrite app_empty_r in Hm. rewrite Hm. cbn [nth].
  destruct (String.eqb_spec g EmptyString) as [->|_]; [by destruct Hg|].
  cbn [negb]. rewrite Atoi_literal by done.
  pose proof (decimal_nonneg g Hg) as H0. unfold expandToken.
  destruct (Z.leb_spec (decimal g) strconv.maxInt) as [Hle|Hgt].
  - destruct (Z.ltb_spec (decimal g) (Z.of_nat (length params))) as [Hlt|Hge].
    + destruct (lookup_lt_is_Some_2 params (Z.to_nat (decimal g))) as [v Hv];
        [lia|].
      rewrite Hv. by apply nth_lookup_Some with (d := EmptyString) in Hv.
    + rewrite lookup_ge_None_2 by lia. done.
  - rewrite lookup_ge_None_2 by lia. done.
Qed.

(** ** A text cut at its tokens *)

Lemma concat_empty_cons (x : string) (l : list string) :
  String.concat EmptyString (x :: l) = x +:+ String.concat EmptyString l.
Proof. destruct l; simpl; [by rewrite app_empty_r|done]. Qed.

Lemma pieces_boundary tok (l : list (string * string)) :
  (∀ g, ∃ s, tok g = String "{" s) →
  boundary (String.concat EmptyString (map (λ p, tok p.1 +:+ p.2) l)).
Proof.
  intros Htok. destruct l as [|[g t] l]; [by left|]. right.
  rewrite map_cons, concat_empty_cons. simpl.
  destruct (Htok g) as [s ->]. sapp. eauto.
Qed.

Lemma replaceFrom_pieces repl (l : list (string * string)) :
  Forall (λ p, isLiteral p.1 ∧ tokenFree p.2) l →
  regexp.replaceFrom repl
    (String.concat EmptyString (map (λ p, token p.1 +:+ p.2) l)) 0
  = String.concat EmptyString
      (map (λ p, repl (regexp.matched p.1) +:+ p.2) l).
Proof.
  induction 1 as [|[g t] l [Hg Ht] _ IH]; [done|].
  rewrite !map_cons, !concat_empty_cons. simpl fst. simpl snd.
  rewrite !app_assoc_s. change (token g) with (regexp.matched g).
  rewrite replaceFrom_token by done.
  rewrite replaceFrom_text.
  - by rewrite IH.
  - by apply tokenFree_hasToken.
  - apply pieces_boundary. intros g'. by eexists.
Qed.

(** Every input can be cut at its tokens. *)
Lemma pieces_exist (s : string) :
  ∃ t0 l,
    tokenFree t0
    ∧ Forall (λ p, isLiteral p.1 ∧ tokenFree p.2) l
    ∧ s = pieces token t0 l.
Proof.
  remember (String.length s) as n eqn:Hn. revert s Hn.
  induction n as [n IH] using lt_wf_ind. intros s ->.
  destruct s as [|c s].
  { exists EmptyString, []. split_and!; [|done..].
    by apply tokenFree_hasToken. }
  destruct (regexp.matchAt (String c s)) as [[g rest]|] eqn:Em.
  - apply matchAt_sound in Em as [Hs Hg].
    destruct (IH (String.length rest)) with (s := rest)
      as (t0 & l & Ht0 & Hl & ->); [|done|].
    { rewrite Hs, length_app. unfold regexp.matched.
      rewrite !length_app. simpl. lia. }
    exists EmptyString, ((g, t0) :: l). split_and!.
    + by apply tokenFree_hasToken.
    + by constructor.
    + rewrite Hs. unfold pieces. rewrite map_cons, concat_empty_cons.
      simpl. by rewrite !app_assoc_s.
  - destruct (IH (String.length s)) with (s := s)
      as (t0 & l & Ht0 & Hl & Hs); [simpl; lia|done|].
    exists (String c t0), l. split_and!; [|done|].
    + apply tokenFree_hasToken. simpl. apply orb_false_intro;
        [|by apply tokenFree_hasToken].
      apply bool_decide_eq_false. intros [m Hm].
      rewrite Hs in Em. unfold pieces in Em.
      rewrite <- app_cons, matchAt_boundary, Hm in Em; [done|].
      apply pieces_boundary. intros g. by eexists.
    + rewrite Hs at 1. unfold pieces. by sapp.
Qed.

(** ** The JSON parser reads with the fuel it is given *)

Lemma expect_length c s r :
  json.expect c s = Some r → String.length s = S (String.length r).
Proof.
  destruct s as [|a s]; simpl; [done|].
  destruct (Ascii.eqb a c); [|done]. by intros [= ->].
Qed.

Lemma skipSpace_length s :
  String.length (json.skipSpace s) ≤ String.length s.
Proof.
  induction s as [|c s IH]; simpl; [done|].
  destruct (json.isSpace c); simpl; lia.
Qed.

Lemma literal_length lit s r :
  regexp.literal lit s = Some r →
  String.length s = String.length lit + String.length r.
Proof. intros ->%literal_sound. apply length_app. Qed.

Lemma digits_length s :
  String.length (regexp.digits s).2 ≤ String.length s.
Proof.
  induction s as [|c s IH]; simpl; [done|].
  destruct (strconv.isDigit c); [|simpl; lia].
  destruct (regexp.digits s). simpl in *. lia.
Qed.

Lemma digits_progress s d ds r :
  regexp.digits s = (String d ds, r) → String.length r < String.length s.
Proof.
  destruct s as [|c s]; simpl; [done|].
  destruct (strconv.isDigit c); [|done].
  pose proof (digits_length s).
  destruct (regexp.digits s) as [ds' r']. intros [= _ _ ->]. simpl in *. lia.
Qed.

Lemma prepend_Some c o decoded rest :
  json.prepend c o = Some (decoded, rest) →
  ∃ decoded', o = Some (decoded', rest).
Proof. destruct o as [[??]|]; [|done]. intros [= _ ->]. eauto. Qed.

Lemma prependRune_Some n o decoded rest :
  json.prependRune n o = Some (decoded, rest) →
  ∃ decoded', o = Some (decoded', rest).
Proof. destruct o as [[??]|]; [|done]. intros [= _ ->]. eauto. Qed.

Lemma scanString_length n : ∀ s cont decoded rest,
  String.length s ≤ n →
  json.scanString s cont = Some (decoded, rest) →
  String.length rest < String.length s.
Proof.
  induction n as [|n IH]; intros s cont decoded rest Hn H.
  { destruct s; [done|simpl in Hn; lia]. }
  destruct s as [|c s]; [done|]. simpl in Hn.
  cbn [json.scanString] in H.
  repeat
    (match type of H with
     | json.prepend _ _ = Some _ =>
         apply prepend_Some in H as [? H]
     | json.prependRune _ _ = Some _ =>
         apply prependRune_Some in H as [? H]
     | json.scanString _ _ = Some _ =>
         apply IH in H; [simpl in *; lia|simpl in *; lia]
     | Some _ = Some _ => injection H as <- <-; simpl; lia
     | None = Some _ => discriminate H
     | context [match ?x with _ => _ end] => destruct x eqn:?
     end).
Qed.

Lemma scanNumber_length s rest :
  json.scanNumber s = Some rest → String.length rest < String.length s.
Proof.
  unfold json.scanNumber.
  set (s1 := match s with String "-" r => r | _ => s end).
  assert (String.length s1 ≤ String.length s) as Hs1.
  { subst s1. destruct s as [|c s]; [done|].
    destruct c as [[] [] [] [] [] [] [] []]; simpl; lia. }
  intros H.
  assert (∃ r0, String.length r0 < String.length s1
                ∧ String.length rest ≤ String.length r0) as (r0 & ? & ?);
    [|lia].
  destruct s1 as [|c r]; [done|].
  assert (∃ r0, String.length r0 < String.length (String c r)
           ∧ match (match r0 with
                    | String "." r' =>
                        match regexp.digits r' with
                        | (String _ _, r'') => Some r''
                        | _ => None
                        end
                    | _ => Some r0
                    end) with
             | Some r' =>
                 match r' with
                 | String c r'0 =>
                     if Ascii.eqb c "e" || Ascii.eqb c "E" then
                       let r'1 := match r'0 with
                                  | String "+" x => x
                                  | String "-" x => x
                                  | _ => r'0
                                  end in
                       match regexp.digits r'1 with
                       | (String _ _, r'') => Some r''
                       | _ => None
                       end
                     else Some r'
                 | EmptyString => Some r'
                 end
             | None => None
             end = Some rest) as (r0 & Hr0 & H').
  { destruct (Ascii.eqb_spec c "0") as [->|Hc0].
    - exists r. split; [simpl; lia|done].
    - assert (match String c r with
              | String "0" r1 => Some r1
              | String c0 _ =>
                  if strconv.isDigit c0
                  then Some (regexp.digits (String c r)).2 else None
              | EmptyString => None
              end
              = if strconv.isDigit c
                then Some (regexp.digits (String c r)).2 else None) as E.
      { destruct c as [[] [] [] [] [] [] [] []]; try done. }
      rewrite E in H. clear E.
      destruct (strconv.isDigit c) eqn:Ec; [|done].
      exists (regexp.digits (String c r)).2. split; [|done].
      simpl. rewrite Ec. pose proof (digits_length r).
      destruct (regexp.digits r). simpl in *. lia. }
  exists r0. split; [done|]. clear H Hr0 Hs1.
  assert (∃ r1, String.length r1 ≤ String.length r0
           ∧ match r1 with
             | String c r'0 =>
                 if Ascii.eqb c "e" || Ascii.eqb c "E" then
                   let r'1 := match r'0 with
                              | String "+" x => x
                              | String "-" x => x
                              | _ => r'0
                              end in
                   match regexp.digits r'1 with
                   | (String _ _, r'') => Some r''
                   | _ => None
                   end
                 else Some r1
             | EmptyString => Some r1
             end = Some rest) as (r1 & Hr1 & H'').
  { destruct r0 as [|c0 r0']; [by exists EmptyString|].
    destruct (Ascii.eqb_spec c0 ".") as [->|Hdot].
    - destruct (regexp.digits r0') as [[|d ds] r''] eqn:Ed; [done|].
      apply digits_progress in Ed. exists r''. split; [simpl; lia|done].
    - exists (String c0 r0'). split; [done|].
      destruct c0 as [[] [] [] [] [] [] [] []]; try done. }
  destruct r1 as [|c1 r1']; [by injection H'' as <-|].
  destruct (Ascii.eqb c1 "e" || Ascii.eqb c1 "E"); [|by injection H'' as <-].
  cbv zeta in H''.
  destruct (regexp.digits _) as [[|d ds] r''] eqn:Ed; [done|].
  injection H'' as <-. apply digits_progress in Ed.
  assert (String.length
            (match r1' with
             | String "+" x => x
             | String "-" x => x
             | _ => r1'
             end) ≤ String.length r1') as Hsign.
  { destruct r1' as [|c2 x]; [done|].
    destruct c2 as [[] [] [] [] [] [] [] []]; simpl; lia. }
  simpl in Hr1. lia.
Qed.

(** The lengths that the steps of the parser relate. *)
Ltac fuel_lengths :=
  repeat
    match goal with
    | H : json.expect _ _ = Some _ |- _ =>
        pose proof (expect_length _ _ _ H); revert H
    | H : regexp.literal _ _ = Some _ |- _ =>
        let H' := fresh in
        pose proof (literal_length _ _ _ H) as H'; simpl in H'; revert H
    | H : json.scanString ?s _ = Some _ |- _ =>
        pose proof (scanString_length _ _ _ _ _ (Nat.le_refl _) H);
        revert H
    | H : json.scanNumber ?s = Some _ |- _ =>
        pose proof (scanNumber_length _ _ H); revert H
    | _ : context [json.skipSpace ?x] |- _ =>
        lazymatch goal with
        | _ : String.length (json.skipSpace x) ≤ String.length x |- _ => fail
        | _ => pose proof (skipSpace_length x)
        end
    end;
  intros; cbn [String.length] in *.

(** The recursive calls that succeeded: they read forward, and succeed
    again with the fuel at hand. *)
Ltac fuel_calls IHv IHe IHm :=
  repeat
    match goal with
    | H : json.parseValue _ _ _ = Some _ |- _ =>
        apply IHv in H; destruct H as [? ?]
    | H : json.parseElems _ _ _ = Some _ |- _ =>
        apply IHe in H; destruct H as [? ?]
    | H : json.parseMembers _ _ _ = Some _ |- _ =>
        apply IHm in H; destruct H as [? ?]
    end.

Ltac fuel_rerun :=
  repeat
    match goal with
    | H : ?x = _ |- context [?x] => rewrite H
    | H : ∀ fuel' : nat, _ → json.parseValue fuel' ?d ?s = _
      |- context [json.parseValue ?f ?d ?s] => rewrite (H f) by lia
    | H : ∀ fuel' : nat, _ → json.parseElems fuel' ?d ?s = _
      |- context [json.parseElems ?f ?d ?s] => rewrite (H f) by lia
    | H : ∀ fuel' : nat, _ → json.parseMembers fuel' ?d ?s = _
      |- context [json.parseMembers ?f ?d ?s] => rewrite (H f) by lia
    end.

Lemma parse_fuelOK fuel :
  (∀ depth s, fuelOK (λ f, json.parseValue f depth s) s fuel)
  ∧ (∀ depth s, fuelOK (λ f, json.parseElems f depth s) s fuel)
  ∧ (∀ depth s, fuelOK (λ f, json.parseMembers f depth s) s fuel).
Proof.
  induction fuel as [|fuel (IHv & IHe & IHm)]; [by repeat split|].
  unfold fuelOK in *.
  split_and!; intros depth s r rest H; cbn [json.parseValue json.parseElems
    json.parseMembers] in H.
  - destruct s as [|c s']; [done|].
    repeat (match type of H with
            | context [match ?x with _ => _ end] => destruct x eqn:?
            end; try done).
    all: injection H as <- <-.
    all: fuel_calls IHv IHe IHm; fuel_lengths.
    all: split; [lia|].
    all: intros [|f'] Hf'; [lia|].
    all: cbn [json.parseValue]; fuel_rerun; done.
  - repeat (match type of H with
            | context [match ?x with _ => _ end] => destruct x eqn:?
            end; try done).
    all: injection H as <- <-.
    all: fuel_calls IHv IHe IHm; fuel_lengths.
    all: split; [lia|].
    all: intros [|f'] Hf'; [lia|].
    all: cbn [json.parseElems]; fuel_rerun; done.
  - repeat (match type of H with
            | context [match ?x with _ => _ end] => destruct x eqn:?
            end; try done).
    all: injection H as <- <-.
    all: fuel_calls IHv IHe IHm; fuel_lengths.
    all: split; [lia|].
    all: intros [|f'] Hf'; [lia|].
    all: cbn [json.parseMembers]; fuel_rerun; done.
Qed.

(** The fuel that [parse] gives is enough: a value that any fuel reads from
    the whole input is the value that [parse] returns. *)
Lemma parse_fuel_enough data fuel v rest :
  json.parseValue fuel 0 (json.skipSpace data) = Some (v, rest) →
  json.skipSpace rest = EmptyString →
  json.parse data = Some v.
Proof.
  intros H Hrest. unfold json.parse.
  destruct (parse_fuelOK fuel) as (Hv & _ & _).
  destruct (Hv _ _ _ _ H) as [_ Hre].
  rewrite Hre.
  - by rewrite decide_True.
  - pose proof (skipSpace_length data). lia.
Qed.

(** ** The handler *)

Lemma mockHandler_reaches world configDir current r filePath pathParams
    logged data readErr :
  reaches world configDir r filePath pathParams logged data readErr →
  mockHandler world configDir current r
  = (corsHeaders ++ map LogPrintf logged
     ++ match json.Unmarshal data with
        | None => [SetHeader "Content-Type" "application/json";
                   WriteHeader 200;
                   WriteBody data]
        | Some mock => serveMock pathParams r mock
        end,
     pathParams).
Proof.
  intros (Hroot & Hopt & Hfind & Hfile & Hopen). unfold mockHandler.
  destruct (String.eqb_spec (URLPath r) "/"); [done|].
  destruct (String.eqb_spec (ReqMethod r) "OPTIONS"); [done|].
  rewrite Hfind.
  destruct (String.eqb_spec filePath EmptyString); [done|].
  by rewrite Hopen.
Qed.

Lemma existsb_eqb (x : string) (l : list string) :
  existsb (String.eqb x) l = bool_decide (x ∈ l).
Proof.
  induction l as [|y l IH]; cbn [existsb].
  - rewrite bool_decide_eq_false_2; [done|]. by intros ?%elem_of_nil.
  - rewrite IH, eqb_decide.
    destruct (decide (x = y)) as [->|Hne].
    + rewrite (bool_decide_eq_true_2 (y = y)) by done.
      by rewrite (bool_decide_eq_true_2 (y ∈ y :: l))
        by (apply elem_of_cons; by left).
    + rewrite (bool_decide_eq_false_2 (x = y)) by done. cbn [orb].
      apply bool_decide_ext. rewrite elem_of_cons. by split; [right|intros [?|?]].
Qed.

Lemma serveMock_rejected pathParams r mock :
  Method mock ≠ [] → ReqMethod r ∉ Method mock →
  serveMock pathParams r mock
  = respondJSON 405 [("error", "Method Not Allowed");
                     ("allow", str.Join (Method mock) ", ")].
Proof.
  intros Hne Hnot. unfold serveMock.
  rewrite existsb_eqb, bool_decide_eq_false_2 by done.
  by destruct (Method mock).
Qed.

Lemma serveMock_allowed pathParams r mock :
  methodAllowed r mock →
  serveMock pathParams r mock
  = (if (0 <? Delay mock)%Z
     then [Sleep (wrap64 (wrap64 (Delay mock) * Millisecond))] else [])
    ++ headerEvents pathParams mock
    ++ (let status := if (Status mock =? 0)%Z then 200%Z else Status mock in
        if (String.length (Body mock) =? 0)%nat
           || String.eqb (Body mock) "null"
        then [WriteHeader (if (status =? 200)%Z then 204%Z else status)]
        else [SetHeader "Content-Type" "application/json; charset=utf-8";
              WriteHeader status;
              WriteBody (replacePathParams pathParams (Body mock))]).
Proof.
  intros Hok. unfold serveMock.
  destruct Hok as [->|Hin]; [done|].
  rewrite existsb_eqb, bool_decide_eq_true_2 by done.
  by rewrite andb_false_r.
Qed.

Lemma bodyEmpty_test mock :
  (String.length (Body mock) =? 0)%nat || String.eqb (Body mock) "null"
  = bool_decide (bodyEmpty mock).
Proof.
  unfold bodyEmpty. rewrite eqb_decide.
  destruct (Body mock) as [|c b]; cbn [String.length Nat.eqb orb].
  - by rewrite (bool_decide_eq_true_2 (_ ∨ _)) by by left.
  - apply bool_decide_ext. by split; [right|intros [?|?]].
Qed.

Lemma statusOf_silent pre events :
  Forall silent pre → statusOf (pre ++ events) = statusOf events.
Proof. induction 1 as [|[] ? []]; simpl; done. Qed.

Lemma bodyOf_silent pre events :
  Forall silent pre → bodyOf (pre ++ events) = bodyOf events.
Proof. induction 1 as [|[] ? []]; simpl; done. Qed.

Lemma silent_cors : Forall silent corsHeaders.
Proof. by repeat constructor. Qed.

Lemma silent_logs logged : Forall silent (map LogPrintf logged).
Proof. apply Forall_map. by apply Forall_true. Qed.

Lemma silent_headers pathParams mock :
  Forall silent (headerEvents pathParams mock).
Proof. apply Forall_map. by apply Forall_true. Qed.

Lemma silent_delay mock :
  Forall silent
    (if (0 <? Delay mock)%Z
     then [Sleep (wrap64 (wrap64 (Delay mock) * Millisecond))] else []).
Proof. destruct (_ <? _)%Z; by repeat constructor. Qed.

Lemma noBody_silent pre code :
  Forall silent pre → noBody (pre ++ [WriteHeader code]).
Proof.
  intros Hpre e [He|He]%elem_of_app.
  - rewrite Forall_forall in Hpre. specialize (Hpre e He).
    by destruct e.
  - apply list_elem_of_singleton in He as ->. done.
Qed.

Lemma noSleep_app a b : noSleep a → noSleep b → noSleep (a ++ b).
Proof. intros Ha Hb e [?|?]%elem_of_app; auto. Qed.

Lemma noSleep_cors : noSleep corsHeaders.
Proof.
  intros e He d ->. unfold corsHeaders in He.
  repeat (apply elem_of_cons in He as [He|He]; [done|]).
  by apply elem_of_nil in He.
Qed.

Lemma noSleep_map {A} (f : A → Event) (l : list A) :
  (∀ x d, f x ≠ Sleep d) → noSleep (map f l).
Proof.
  intros Hf e He d ->. apply list_elem_of_fmap in He as (x & Hx & _).
  by apply (Hf x d).
Qed.

Lemma noSleep_statusAndBody pathParams mock :
  noSleep (statusAndBody pathParams mock).
Proof.
  intros e He d ->. unfold statusAndBody in He.
  destruct (bool_decide _);
    repeat (apply elem_of_cons in He as [He|He]; [done|]);
    by apply elem_of_nil in He.
Qed.

Lemma noSleep_methodNotAllowed mock : noSleep (methodNotAllowed mock).
Proof.
  intros e He d ->. unfold methodNotAllowed in He.
  repeat (apply elem_of_cons in He as [He|He]; [done|]).
  by apply elem_of_nil in He.
Qed.

(** The handler on a parsed descriptor, by the outcome of the method
    check. *)
Lemma serveMock_cases pathParams r mock :
  serveMock pathParams r mock
  = if bool_decide (methodAllowed r mock)
    then (if (0 <? Delay mock)%Z
          then [Sleep (wrap64 (wrap64 (Delay mock) * Millisecond))] else [])
         ++ headerEvents pathParams mock ++ statusAndBody pathParams mock
    else methodNotAllowed mock.
Proof.
  case_bool_decide as Hok.
  - rewrite serveMock_allowed by done. unfold statusAndBody.
    by rewrite bodyEmpty_test.
  - apply serveMock_rejected.
    + intros Hnil. apply Hok. by left.
    + intros Hin. apply Hok. by right.
Qed.

(** A file whose bytes are no descriptor is served as it is. *)
Lemma unparsable_served_raw world configDir current r filePath pathParams
    logged data readErr :
  reaches world configDir r filePath pathParams logged data readErr →
  json.Unmarshal data = None →
  (mockHandler world configDir current r).1
  = corsHeaders ++ map LogPrintf logged ++ rawResponse data.
Proof.
  intros Hr Hparse. erewrite mockHandler_reaches by done.
  by rewrite Hparse.
Qed.

(** A JSON array, a string, a number and a boolean are no descriptor. *)
Lemma not_object_unparsable data v :
  json.parse data = Some v →
  (∀ members, v ≠ json.Object members) → v ≠ json.Null →
  json.Unmarshal data = None.
Proof.
  intros Hp Hobj Hnull. unfold json.Unmarshal. rewrite Hp.
  destruct v; try done. by specialize (Hobj members).
Qed.

(** A file that cannot be opened is answered with status 500. *)
Lemma open_error_gives_500 world configDir current r filePath pathParams
    logged msg :
  URLPath r ≠ "/" → ReqMethod r ≠ "OPTIONS" →
  findBestMockFile (store world) configDir (str.TrimPrefix (URLPath r) "/")
  = (filePath, pathParams, logged) →
  filePath ≠ EmptyString →
  osOpen world filePath = OpenError msg →
  (mockHandler world configDir current r).1
  = corsHeaders ++ map LogPrintf logged
    ++ respondJSON 500 [("error", "Server Error")].
Proof.
  intros Hroot Hopt Hfind Hfile Hopen. unfold mockHandler.
  destruct (String.eqb_spec (URLPath r) "/"); [done|].
  destruct (String.eqb_spec (ReqMethod r) "OPTIONS"); [done|].
  rewrite Hfind.
  destruct (String.eqb_spec filePath EmptyString); [done|].
  by rewrite Hopen.
Qed.

(** * The claims *)

(** C2 (confirmed).  A route template matches a request path exactly when
    the two have the same number of segments and, position by position, a
    wildcard segment faces a non-empty request segment and a literal
    segment faces an equal request segment; the captured PathParams are
    then the request segments that face the wildcards, in template order
    (and the loop has counted the wildcards).  A wildcard facing an empty
    request segment makes [segAccepts] fail, hence the candidate is
    rejected. *)
Theorem matchParts_iff (mockParts requestParts params : list string)
    (underscoreCount : nat) :
  matchParts mockParts requestParts = Some (params, underscoreCount)
  ↔ length mockParts = length requestParts
    ∧ Forall2 segAccepts mockParts requestParts
    ∧ params = captured mockParts requestParts
    ∧ underscoreCount = wildcards mockParts.
Proof.
  unfold matchParts. split.
  - destruct (Nat.eqb_spec (length mockParts) (length requestParts))
      as [Hlen|]; [|done]. simpl.
    destruct (matchLoop mockParts requestParts [] 0) as [[[] ps] n] eqn:E;
      [|done].
    intros [= <- <-]. apply matchLoop_true in E as (? & ? & ?); done.
  - intros (Hlen & HF & -> & ->).
    rewrite Hlen, Nat.eqb_refl. simpl.
    by rewrite matchLoop_complete.
Qed.
(** C1, as claimed, fails.  In a store whose unreadable directory [mock/a]
    stands between [mock/_.json] and [mock/b.json], both files match the
    request [b], the first with one wildcard and the second with none; but
    the walk ends at the directory, [mock/b.json] is never scored, and
    [findBestMockFile] selects the template with the wildcard. *)
Lemma unreadable_dir_hides_better_match :
  traversalFS storeWithHiddenFile "mock"
  = [Met "mock/_.json";
     Failed "open mock/a: permission denied";
     Met "mock/b.json"]
  ∧ isCandidate "mock" (str.Split "b" "/") "mock/_.json" ["b"]
  ∧ wildcards (mockPartsOf "mock" "mock/_.json") = 1
  ∧ isCandidate "mock" (str.Split "b" "/") "mock/b.json" []
  ∧ wildcards (mockPartsOf "mock" "mock/b.json") = 0
  ∧ findBestMockFile storeWithHiddenFile "mock" "b"
    = ("mock/_.json", ["b"],
       ["Walk error: open mock/a: permission denied"]).
Proof. by vm_compute. Qed.

(** C1 (corrected).  The score that the closure computes for a matching
    template is its number of segments minus its number of wildcard
    segments.  The selection is made among the files that the scan meets
    before the first traversal error, which are all the files of the store
    when the scan meets no error.  [findBestMockFile] returns no file
    exactly when no scanned file matches; otherwise it returns a scanned
    file that matches, with its captured parameters, such that every other
    matching scanned file has a score that is not higher, every matching
    file met earlier in traversal order has a strictly lower score (so the
    first file of highest score is kept), and no matching template of a
    scanned file has fewer wildcards than the selected one. *)
Theorem findBestMockFile_most_specific (fs : FS)
    (baseDir requestPath : string) :
  let requestParts := str.Split requestPath "/" in
  let files := scanned fs baseDir in
  let best := (findBestMockFile fs baseDir requestPath).1.1 in
  let params := (findBestMockFile fs baseDir requestPath).1.2 in
  (∀ p ps (n : nat),
     matchParts (mockPartsOf baseDir p) requestParts = Some (ps, n) →
     (Z.of_nat (length requestParts) - Z.of_nat n)%Z
     = specificity (mockPartsOf baseDir p))
  ∧ ((best = EmptyString ∧ params = []
      ∧ ∀ p ps, p ∈ files → ¬ isCandidate baseDir requestParts p ps)
     ∨ (∃ i : nat,
          files !! i = Some best
          ∧ isCandidate baseDir requestParts best params
          ∧ ∀ (j : nat) p ps,
              files !! j = Some p →
              isCandidate baseDir requestParts p ps →
              let tb := mockPartsOf baseDir best in
              let tp := mockPartsOf baseDir p in
              (specificity tp ≤ specificity tb)%Z
              ∧ (j < i → (specificity tp < specificity tb)%Z)
              ∧ wildcards tb ≤ wildcards tp))
  ∧ ((upToError (traversalFS fs baseDir)).2 = None →
     ∀ p, Met p ∈ traversalFS fs baseDir → p ∈ files).
Proof.
  intros r files best params. split.
  { intros p ps n (Hlen & ->)%matchParts_Some.
    unfold specificity. by rewrite Hlen. }
  split; [|intros Herr p Hp; by apply upToError_complete].
  subst best params. rewrite findBestMockFile_scan.
  subst files. unfold scanned.
  destruct (upToError _) as [files err]. cbn [fst snd].
  destruct (foldl_consider baseDir r files noBest)
    as [[Heq Hall]|(i & Hi & Hc & _ & Hall)]; fold r.
  - left. rewrite Heq. split_and!; [done..|].
    intros p ps Hp Hcand.
    assert (candidate baseDir r p
            = Some (ps, specificity (mockPartsOf baseDir p))) as Hc
      by by apply candidate_spec.
    pose proof (candidate_score_nonneg _ _ _ _ _ Hc).
    apply (Hall _ _ _ Hp) in Hc. simpl in Hc. lia.
  - right. exists i.
    apply candidate_spec in Hc as [Hbest Hsc].
    split_and!; [done..|].
    intros j p ps Hj Hp. simpl.
    assert (candidate baseDir r p
            = Some (ps, specificity (mockPartsOf baseDir p))) as Hc
      by by apply candidate_spec.
    destruct (Hall j p ps _ Hj Hc) as [Hle Hlt].
    rewrite Hsc in Hle, Hlt. split_and!; [done..|].
    destruct Hbest as [_ Hb], Hp as [_ Hp].
    destruct (matchParts (mockPartsOf baseDir _) r) as [[? nb]|] eqn:Eb in Hb;
      [|done].
    destruct (matchParts (mockPartsOf baseDir p) r) as [[? np]|] eqn:Ep;
      [|done].
    apply matchParts_Some in Eb as (Hlb & _), Ep as (Hlp & _).
    unfold specificity in Hle. lia.
Qed.

(** C8, as claimed, fails.  In a store whose directory [mock/a] cannot be
    read, the file [mock/b.json] lies outside that subtree and matches the
    request [b]; the scan that would short-circuit only the subtree finds
    it, but [findBestMockFile] finds nothing: the walk has ended at the
    failure. *)
Lemma walk_error_aborts_scan :
  isCandidate "mock" (str.Split "b" "/") "mock/b.json" []
  ∧ findBestMockFile (pruneFS storeWithUnreadableDir) "mock" "b"
    = ("mock/b.json", [], [])
  ∧ findBestMockFile storeWithUnreadableDir "mock" "b"
    = (EmptyString, [], ["Walk error: open mock/a: permission denied"]).
Proof. by vm_compute. Qed.

(** C8 (corrected).  A traversal error ends the scan and is logged: the
    files met before the failing entry, in traversal order, are the ones
    considered, the best match among them is returned, and the entries
    after the failure are not visited.  Without a failure every file is
    considered and nothing is logged. *)
Theorem scan_ends_at_first_error (fs : FS) (baseDir requestPath : string) :
  let '(files, err) := upToError (traversalFS fs baseDir) in
  let st :=
    foldl (consider baseDir (str.Split requestPath "/")) noBest files in
  findBestMockFile fs baseDir requestPath
  = (bestMatch st, bestParams st,
     match err with Some msg => ["Walk error: " +:+ msg] | None => [] end).
Proof.
  rewrite findBestMockFile_scan. by destruct (upToError _).
Qed.

(** C7, as claimed, fails.  For the file [index.json] directly under the
    root [mock] the closure strips the suffix and the [/index] segment from
    [mock/index.json], and [filepath.Rel] of the root to itself is ["."]:
    the template is [["."]], where the derivation of the specification
    leaves no segment. *)
Lemma root_index_template :
  mockPartsOf "mock" (walkPath "mock" ["index.json"]) = ["."]
  ∧ specRouteTemplate (str.Join ["index.json"] "/") = []
  ∧ mockPartsOf "mock" (walkPath "mock" ["index.json"])
    ≠ specRouteTemplate (str.Join ["index.json"] "/").
Proof. by vm_compute. Qed.

(** C7 (corrected).  For every [.json] file under the Mock Store root,
    other than an [index.json] directly under the root, whose name without
    the [.json] suffix is an ordinary entry name (not empty, not ["."] and
    not [".."]), the route template that the closure derives from the path
    handed to it by the walk is the one of the specification: the [.json]
    suffix stripped, the segments split on [/], and the last segment
    dropped when it is [index].  [dirs] are the directories from the root
    down to the file and [stem] is the file name without its suffix. *)
Theorem routeTemplate_derivation (baseDir : string) (dirs : list string)
    (stem : string) :
  baseDir ≠ EmptyString →
  Forall entryName dirs →
  entryName stem →
  ¬ (dirs = [] ∧ stem = "index") →
  mockPartsOf baseDir (walkPath baseDir (dirs ++ [stem +:+ ".json"]))
  = specRouteTemplate (str.Join (dirs ++ [stem +:+ ".json"]) "/").
Proof.
  intros Hbase Hdirs Hstem Hroot.
  rewrite mockPartsOf_walkPath by done.
  by rewrite specRouteTemplate_names.
Qed.

Lemma routeTemplate_derivation_witness :
  mockPartsOf "mock" (walkPath "mock" (["users"; "_"] ++ ["created.json"]))
  = specRouteTemplate (str.Join (["users"; "_"] ++ ["created.json"]) "/")
  ∧ specRouteTemplate (str.Join (["users"; "_"] ++ ["created.json"]) "/")
    = ["users"; "_"; "created"].
Proof.
  split; [|reflexivity].
  apply (routeTemplate_derivation "mock" ["users"; "_"] "created").
  - discriminate.
  - repeat constructor; discriminate.
  - repeat constructor; discriminate.
  - intros [H _]. discriminate H.
Defined.

(** The two files that the specification names. *)
Example template_users_index :
  mockPartsOf "mock" (walkPath "mock" ["users"; "index.json"]) = ["users"].
Proof. reflexivity. Qed.

Example template_users_created :
  mockPartsOf "mock" (walkPath "mock" ["users"; "_"; "created.json"])
  = ["users"; "_"; "created"].
Proof. reflexivity. Qed.

(** C4 (confirmed).  Cut the input at its syntactically valid tokens: a
    text [t0] without token, then tokens [{path.N}], [N] a non-empty run of
    decimal digits, each followed by a text without token.  The Template
    Expander returns the texts unchanged and, in the place of each token,
    [PathParams[N]] when [N] is a valid index and the token itself
    otherwise (an index out of range, also one too large for an [int]);
    a malformed token is part of the texts.  The function is total: there
    is no error.  A Go slice has at most [maxInt] elements. *)
Theorem replacePathParams_expands (pathParams : list string) (t0 : string)
    (l : list (string * string)) :
  (Z.of_nat (length pathParams) ≤ strconv.maxInt)%Z →
  tokenFree t0 →
  Forall (λ p, isLiteral p.1 ∧ tokenFree p.2) l →
  replacePathParams pathParams (pieces token t0 l)
  = pieces (expandToken pathParams) t0 l.
Proof.
  intros Hlen Ht0 Hl.
  unfold replacePathParams, regexp.ReplaceAllStringFunc, pieces.
  rewrite replaceFrom_text.
  - f_equal. rewrite replaceFrom_pieces by done. f_equal.
    apply map_ext_Forall. eapply Forall_impl; [exact Hl|].
    intros [g t] [Hg _]. simpl. f_equal. by apply closure_token.
  - by apply tokenFree_hasToken.
  - apply pieces_boundary. intros g. by eexists.
Qed.

Lemma replacePathParams_expands_witness :
  replacePathParams ["42"]
    (pieces token "{'id': '" [("0", "', 'far': '"); ("5", "'} {path.x}")])
  = "{'id': '42', 'far': '{path.5}'} {path.x}".
Proof.
  apply (replacePathParams_expands ["42"] "{'id': '"
           [("0", "', 'far': '"); ("5", "'} {path.x}")]).
  - by vm_compute.
  - by apply tokenFree_hasToken.
  - repeat constructor; simpl; try discriminate; by apply tokenFree_hasToken.
Defined.

(** C3 (the code departs from the claim).  The file [mock/user.json] holds
    the plain JSON object [{"id": 1, "name": "Simple Taro"}], which has no
    field of the descriptor.  [json.Unmarshal] accepts it and leaves the
    descriptor zero, so the handler does not take the raw fallback: it
    answers a GET with status 204 and writes no body, where the claim (and
    the "Simple Mode" of the README) has the file returned verbatim with
    status 200. *)
Lemma plain_object_answered_204 :
  let data := qq "{'id': 1, 'name': 'Simple Taro'}" in
  let events :=
    (mockHandler (oneFileWorld (Opened data None)) "mock" [] getUser).1 in
  json.Unmarshal data = Some zeroMock
  ∧ events = corsHeaders ++ [WriteHeader 204]
  ∧ statusOf events = Some 204%Z
  ∧ bodyOf events = EmptyString.
Proof. by vm_compute. Qed.

(** C5 (confirmed).  For a descriptor that was parsed and lets the method
    pass, the effective status is the [status] field when it is not zero
    and 200 otherwise.  When the body is empty or literally [null], a
    status that would be 200 becomes 204 and no body is written; otherwise
    the effective status is written with the expanded body. *)
Theorem effective_status world configDir current r filePath pathParams
    logged data readErr mock :
  reaches world configDir r filePath pathParams logged data readErr →
  json.Unmarshal data = Some mock →
  methodAllowed r mock →
  let events := (mockHandler world configDir current r).1 in
  let status := if (Status mock =? 0)%Z then 200%Z else Status mock in
  (bodyEmpty mock →
     statusOf events = Some (if (status =? 200)%Z then 204%Z else status)
     ∧ noBody events)
  ∧ (¬ bodyEmpty mock →
       statusOf events = Some status
       ∧ bodyOf events = replacePathParams pathParams (Body mock)).
Proof.
  intros Hr Hparse Hok events status. subst events.
  erewrite mockHandler_reaches by done. rewrite Hparse. cbn [fst].
  rewrite serveMock_cases, bool_decide_eq_true_2 by done.
  unfold statusAndBody. fold status.
  pose proof silent_cors. pose proof (silent_logs logged).
  pose proof (silent_delay mock).
  pose proof (silent_headers pathParams mock).
  split; intros Hbody.
  - rewrite bool_decide_eq_true_2 by done. split.
    + by rewrite !statusOf_silent.
    + rewrite !app_assoc. apply noBody_silent.
      by repeat apply Forall_app_2.
  - rewrite bool_decide_eq_false_2 by done. split.
    + by rewrite !statusOf_silent.
    + rewrite !bodyOf_silent by done. simpl. apply app_empty_r.
Qed.

Lemma effective_status_witness :
  let world := oneFileWorld (Opened (qq "{'headers': {}, 'body': null}") None) in
  statusOf (mockHandler world "mock" [] getUser).1 = Some 204%Z
  ∧ noBody (mockHandler world "mock" [] getUser).1.
Proof.
  intros world.
  refine (proj1 (effective_status world "mock" [] getUser "mock/user.json"
                   [] [] (qq "{'headers': {}, 'body': null}") None
                   (mkMock [] 0 0 ∅ "null") _ _ _) _).
  - by repeat split.
  - by vm_compute.
  - by left.
  - by right.
Defined.

(** C6 (confirmed).  For a descriptor that was parsed: when its list of
    methods is not empty and does not hold the method of the request, the
    handler answers with status 405 and a body that carries the error and
    the allowed methods joined by a comma (and a space), and does nothing
    else: no sleep, none of the headers of the descriptor, no body of the
    descriptor.  When the list is empty, no method is rejected: the handler
    goes on to the delay, the headers, the status and the body. *)
Theorem method_filter world configDir current r filePath pathParams
    logged data readErr mock :
  reaches world configDir r filePath pathParams logged data readErr →
  json.Unmarshal data = Some mock →
  let events := (mockHandler world configDir current r).1 in
  (Method mock ≠ [] → ReqMethod r ∉ Method mock →
     events = corsHeaders ++ map LogPrintf logged
              ++ [SetHeader "Content-Type" "application/json; charset=utf-8";
                  WriteHeader 405;
                  EncodeJSON [("error", "Method Not Allowed");
                              ("allow", str.Join (Method mock) ", ")]]
     ∧ statusOf events = Some 405%Z
     ∧ noSleep events)
  ∧ (Method mock = [] →
       events = corsHeaders ++ map LogPrintf logged
                ++ (if (0 <? Delay mock)%Z
                    then [Sleep (wrap64 (wrap64 (Delay mock) * Millisecond))]
                    else [])
                ++ headerEvents pathParams mock
                ++ statusAndBody pathParams mock).
Proof.
  intros Hr Hparse events. subst events.
  erewrite mockHandler_reaches by done. rewrite Hparse. cbn [fst].
  rewrite serveMock_cases. split.
  - intros Hne Hnot. rewrite bool_decide_eq_false_2 by by intros [?|?].
    split_and!; [done| |].
    + by rewrite !statusOf_silent by auto using silent_cors, silent_logs.
    + repeat apply noSleep_app;
        auto using noSleep_cors, noSleep_methodNotAllowed.
      by apply noSleep_map.
  - intros Hnil. by rewrite bool_decide_eq_true_2 by by left.
Qed.

Lemma method_filter_witness :
  let world :=
    oneFileWorld (Opened (qq "{'method': ['POST'], 'delay': 5}") None) in
  (mockHandler world "mock" [] getUser).1
  = corsHeaders
    ++ [SetHeader "Content-Type" "application/json; charset=utf-8";
        WriteHeader 405;
        EncodeJSON [("error", "Method Not Allowed"); ("allow", "POST")]]
  ∧ statusOf (mockHandler world "mock" [] getUser).1 = Some 405%Z
  ∧ noSleep (mockHandler world "mock" [] getUser).1.
Proof.
  intros world.
  refine (proj1 (method_filter world "mock" [] getUser "mock/user.json"
                   [] [] (qq "{'method': ['POST'], 'delay': 5}") None
                   (mkMock ["POST"] 0 5 ∅ EmptyString) _ _) _ _).
  - by repeat split.
  - by vm_compute.
  - done.
  - intros [H|H]%elem_of_cons; [done|by apply elem_of_nil in H].
Defined.

(** C9 (the code departs from the claim).  The file [mock/user.json]
    opens, but reading it fails (a symbolic link to a directory, say) and
    [io.ReadAll] returns no byte and an error.  The handler drops that
    error: the empty bytes are no descriptor and go out through the raw
    fallback with status 200, where the claim has status 500. *)
Lemma read_error_answered_200 :
  let world :=
    oneFileWorld
      (Opened EmptyString (Some "read mock/user.json: is a directory")) in
  let events := (mockHandler world "mock" [] getUser).1 in
  events = corsHeaders ++ rawResponse EmptyString
  ∧ statusOf events = Some 200%Z.
Proof. by vm_compute. Qed.

(** C10 (confirmed).  For a descriptor that was parsed and whose delay is
    zero or negative, the handler does not sleep; when the method passes,
    it goes from the method check straight to the headers, the status and
    the body. *)
Theorem nonpositive_delay world configDir current r filePath pathParams
    logged data readErr mock :
  reaches world configDir r filePath pathParams logged data readErr →
  json.Unmarshal data = Some mock →
  (Delay mock ≤ 0)%Z →
  let events := (mockHandler world configDir current r).1 in
  noSleep events
  ∧ (methodAllowed r mock →
       events = corsHeaders ++ map LogPrintf logged
                ++ headerEvents pathParams mock
                ++ statusAndBody pathParams mock).
Proof.
  intros Hr Hparse Hdelay events. subst events.
  erewrite mockHandler_reaches by done. rewrite Hparse. cbn [fst].
  rewrite serveMock_cases.
  destruct (Z.ltb_spec 0 (Delay mock)) as [?|_]; [lia|].
  split.
  - repeat apply noSleep_app; auto using noSleep_cors.
    + by apply noSleep_map.
    + case_bool_decide; [|apply noSleep_methodNotAllowed].
      repeat apply noSleep_app; auto using noSleep_statusAndBody.
      * by intros e ?%elem_of_nil.
      * by apply noSleep_map.
  - intros Hok. by rewrite bool_decide_eq_true_2.
Qed.

Lemma nonpositive_delay_witness :
  let world :=
    oneFileWorld (Opened (qq "{'delay': -5, 'body': {'a':1}}") None) in
  noSleep (mockHandler world "mock" [] getUser).1
  ∧ (mockHandler world "mock" [] getUser).1
    = corsHeaders
      ++ [SetHeader "Content-Type" "application/json; charset=utf-8";
          WriteHeader 200;
          WriteBody (qq "{'a':1}")].
Proof.
  intros world.
  pose proof (nonpositive_delay world "mock" [] getUser "mock/user.json"
                [] [] (qq "{'delay': -5, 'body': {'a':1}}") None
                (mkMock [] 0 (-5) ∅ (qq "{'a':1}"))) as H.
  destruct H as [Hno Heq].
  - by repeat split.
  - by vm_compute.
  - by vm_compute.
  - split; [exact Hno|]. apply Heq. by left.
Defined.

(** * The scenarios of the specification, run on the model *)

(** [/users/42/profile] matches only [users/_/profile.json] and captures
    [42]. *)
Example scenario_profile :
  findBestMockFile usersStore "mock" "users/42/profile"
  = ("mock/users/_/profile.json", ["42"], []).
Proof. reflexivity. Qed.

(** [users/_.json] (score 1) is met first, [users/created.json] (score 2)
    replaces it. *)
Example scenario_literal_wins :
  scanned usersStore "mock"
  = ["mock/users/_/profile.json"; "mock/users/_.json";
     "mock/users/created.json"; "mock/users/index.json"]
  ∧ findBestMockFile usersStore "mock" "users/created"
    = ("mock/users/created.json", [], []).
Proof. split; reflexivity. Qed.

(** A trailing slash leaves an empty segment, which no wildcard takes. *)
Example scenario_trailing_slash :
  findBestMockFile usersStore "mock" "users/" = (EmptyString, [], []).
Proof. reflexivity. Qed.

(** Of two templates of equal score the first one met is kept. *)
Example scenario_tie :
  findBestMockFile tieStore "mock" "a/b" = ("mock/_/b.json", ["a"], []).
Proof. reflexivity. Qed.

(** A descriptor with a body and no status: 200, the body, and the JSON
    content type. *)
Example scenario_round_trip :
  let world := oneFileWorld (Opened (qq "{'body': {'a':1}}") None) in
  let events := (mockHandler world "mock" [] getUser).1 in
  statusOf events = Some 200%Z
  ∧ bodyOf events = qq "{'a':1}"
  ∧ headerOf "Content-Type" events None
    = Some "application/json; charset=utf-8".
Proof. by vm_compute. Qed.

(** Bytes that are no JSON at all go out as they are, with status 200. *)
Example scenario_malformed :
  let world := oneFileWorld (Opened "{not json" None) in
  let events := (mockHandler world "mock" [] getUser).1 in
  statusOf events = Some 200%Z
  ∧ bodyOf events = "{not json"
  ∧ headerOf "Content-Type" events None = Some "application/json".
Proof. by vm_compute. Qed.

(** The same for a JSON array, the "Simple Mode" of the README. *)
Example scenario_simple_mode_array :
  let data := qq "[{'id': 1, 'name': 'Simple Taro'}]" in
  let events :=
    (mockHandler (oneFileWorld (Opened data None)) "mock" [] getUser).1 in
  events = corsHeaders ++ rawResponse data.
Proof. by vm_compute. Qed.

(** The placeholder of the specification, through the handler: the
    captured segment replaces [{path.0}] in a header and in the body. *)
Example scenario_placeholder :
  let world :=
    mkWorld usersStore
      (λ _, Opened (qq "{'headers': {'X-Id': '{path.0}'}, 'body': {'id': '{path.0}', 'far': '{path.5}'}}") None) in
  mockHandler world "mock" [] (mkRequest "/users/42" "GET")
  = (corsHeaders
     ++ [SetHeader "X-Id" "42";
         SetHeader "Content-Type" "application/json; charset=utf-8";
         WriteHeader 200;
         WriteBody (qq "{'id': '42', 'far': '{path.5}'}")],
     ["42"]).
Proof. by vm_compute. Qed.

(** * Further properties of the program *)

(** ** The Path Matcher *)

Lemma upToError_elem (items : list Item) (p : string) :
  p ∈ (upToError items).1 → Met p ∈ items.
Proof.
  induction items as [|[q|m] items IH]; simpl.
  - by intros ?%elem_of_nil.
  - destruct (upToError items) as [files err]. simpl in *.
    intros [->|Hp]%elem_of_cons; [by left|]. right. by apply IH.
  - by intros ?%elem_of_nil.
Qed.

Lemma candidate_suffix b r p ps sc :
  candidate b r p = Some (ps, sc) → str.HasSuffix p ".json" = true.
Proof. by intros [[? _] _]%candidate_spec. Qed.

(** The two outcomes of [findBestMockFile]. *)
Lemma findBest_cases (fs : FS) (baseDir requestPath : string) :
  let r := str.Split requestPath "/" in
  let files := scanned fs baseDir in
  let res := (findBestMockFile fs baseDir requestPath).1 in
  (res = (EmptyString, [])
   ∧ ∀ p, p ∈ files → candidate baseDir r p = None)
  ∨ (∃ (i : nat) sc,
       files !! i = Some res.1
       ∧ candidate baseDir r res.1 = Some (res.2, sc)
       ∧ ∀ (j : nat) p ps' sc',
           files !! j = Some p → candidate baseDir r p = Some (ps', sc') →
           (sc' ≤ sc)%Z ∧ (j < i → (sc' < sc)%Z)).
Proof.
  intros r files res. subst res files. rewrite findBestMockFile_scan.
  unfold scanned. destruct (upToError _) as [files err]. cbn [fst snd].
  destruct (foldl_consider baseDir r files noBest)
    as [[Heq Hall]|(i & Hi & Hc & _ & Hall)]; fold r.
  - left. rewrite Heq. split; [done|]. intros p Hp.
    destruct (candidate baseDir r p) as [[ps sc]|] eqn:E; [|done].
    pose proof (candidate_score_nonneg _ _ _ _ _ E).
    apply (Hall _ _ _ Hp) in E. simpl in E. lia.
  - right. exists i, (bestScore (foldl (consider baseDir r) noBest files)).
    by split_and!.
Qed.

Lemma matchParts_inv (mockParts requestParts params : list string) (n : nat) :
  matchParts mockParts requestParts = Some (params, n) →
  length mockParts = length requestParts
  ∧ Forall2 segAccepts mockParts requestParts
  ∧ params = captured mockParts requestParts
  ∧ n = wildcards mockParts.
Proof.
  unfold matchParts.
  destruct (Nat.eqb_spec (length mockParts) (length requestParts))
    as [Hlen|]; [|done]. simpl.
  destruct (matchLoop mockParts requestParts [] 0) as [[[] ps] k] eqn:E;
    [|done].
  intros [= <- <-]. by apply matchLoop_true in E as (? & ? & ?).
Qed.

Lemma matchParts_complete (mockParts requestParts : list string) :
  Forall2 segAccepts mockParts requestParts →
  matchParts mockParts requestParts
  = Some (captured mockParts requestParts, wildcards mockParts).
Proof.
  intros HF. unfold matchParts.
  rewrite (Forall2_length _ _ _ HF), Nat.eqb_refl. simpl.
  by rewrite matchLoop_complete.
Qed.

Lemma captured_props (ms rs : list string) :
  Forall2 segAccepts ms rs →
  Forall (λ p, p ≠ EmptyString ∧ p ∈ rs) (captured ms rs)
  ∧ length (captured ms rs) = wildcards ms.
Proof.
  induction 1 as [|m r ms rs Hh _ [IH1 IH2]]; [by split|].
  unfold wildcards in *. simpl. rewrite filter_cons.
  unfold segAccepts in Hh.
  assert (Forall (λ p, p ≠ EmptyString ∧ p ∈ r :: rs) (captured ms rs)) as IH1'.
  { eapply Forall_impl; [exact IH1|]. intros p [? ?]. split; [done|].
    by apply elem_of_cons; right. }
  destruct (decide (m = wildcard)).
  - split; [|simpl; by rewrite IH2]. constructor; [|done].
    split; [done|]. by apply elem_of_cons; left.
  - done.
Qed.

(** X1.  [findBestMockFile] returns no file exactly when no file of the
    scan is a candidate for the request: a file whose path ends in [.json]
    and whose route template matches is never passed over. *)
Theorem no_match_iff (fs : FS) (baseDir requestPath : string) :
  (findBestMockFile fs baseDir requestPath).1.1 = EmptyString
  ↔ ∀ p ps, p ∈ scanned fs baseDir →
      ¬ isCandidate baseDir (str.Split requestPath "/") p ps.
Proof.
  destruct (findBest_cases fs baseDir requestPath)
    as [[Heq Hnone]|(i & sc & Hi & Hc & _)].
  - rewrite Heq. split; [|done]. intros _ p ps Hp Hcand.
    specialize (Hnone p Hp).
    assert (candidate baseDir (str.Split requestPath "/") p
            = Some (ps, specificity (mockPartsOf baseDir p))) as E
      by by apply candidate_spec.
    by rewrite Hnone in E.
  - split.
    + intros Hempty. rewrite Hempty in Hc.
      by apply candidate_suffix in Hc.
    + intros Hnone. exfalso.
      apply candidate_spec in Hc as [Hcand _].
      eapply Hnone; [|exact Hcand]. by eapply list_elem_of_lookup_2.
Qed.

(** X2.  The file that [findBestMockFile] returns is a file of the Mock
    Store: its path is the one that the walk builds from the root along a
    chain of directory entries that ends at a file, and it ends in
    [.json].  No request path, whatever its segments, leads out of the
    tree. *)
Theorem found_file_in_store (fs : FS) (baseDir requestPath : string) :
  (findBestMockFile fs baseDir requestPath).1.1 ≠ EmptyString →
  ∃ d names,
    fs = Root d
    ∧ leadsToFile d names
    ∧ (findBestMockFile fs baseDir requestPath).1.1 = walkPath baseDir names
    ∧ str.HasSuffix (findBestMockFile fs baseDir requestPath).1.1 ".json"
      = true.
Proof.
  intros Hfound.
  destruct (findBest_cases fs baseDir requestPath)
    as [[Heq _]|(i & sc & Hi & Hc & _)]; [by rewrite Heq in Hfound|].
  apply list_elem_of_lookup_2, upToError_elem in Hi.
  destruct fs as [msg|d]; simpl in Hi.
  { apply list_elem_of_singleton in Hi. done. }
  apply traversal_walkPath in Hi as (names & Hl & Hp).
  exists d, names. split_and!; [done..|]. by eapply candidate_suffix.
Qed.

Lemma found_file_in_store_witness :
  ∃ d names,
    usersStore = Root d
    ∧ leadsToFile d names
    ∧ (findBestMockFile usersStore "mock" "users/../profile").1.1
      = walkPath "mock" names
    ∧ str.HasSuffix
        (findBestMockFile usersStore "mock" "users/../profile").1.1 ".json"
      = true.
Proof.
  apply (found_file_in_store usersStore "mock" "users/../profile").
  by vm_compute.
Defined.

(** X3.  Every captured path parameter is a non-empty segment of the
    request path, without a slash; and when a file is found, there are as
    many parameters as the template has wildcards. *)
Theorem captured_params (fs : FS) (baseDir requestPath : string) :
  let best := (findBestMockFile fs baseDir requestPath).1.1 in
  let params := (findBestMockFile fs baseDir requestPath).1.2 in
  Forall (λ p, p ≠ EmptyString
               ∧ contains "/" p = false
               ∧ p ∈ str.Split requestPath "/") params
  ∧ (best ≠ EmptyString →
       length params = wildcards (mockPartsOf baseDir best)
       ∧ length params ≤ length (str.Split requestPath "/")).
Proof.
  intros best params. subst best params.
  destruct (findBest_cases fs baseDir requestPath)
    as [[Heq _]|(i & sc & Hi & Hc & _)]; [by rewrite Heq|].
  unfold candidate in Hc.
  destruct (str.HasSuffix _ ".json"); [|done].
  destruct (matchParts _ _) as [[ps n]|] eqn:E; [|done].
  injection Hc as Hps _. rewrite <- Hps.
  apply matchParts_inv in E as (Hlen & HF & -> & _).
  destruct (captured_props _ _ HF) as [Hall Hcount]. split.
  - eapply Forall_impl; [exact Hall|]. intros p [Hne Hin].
    split_and!; [done| |done].
    pose proof (Split_parts_nosep requestPath "/") as Hsep.
    rewrite Forall_forall in Hsep. by apply Hsep.
  - intros _. split; [done|]. rewrite Hcount, <- Hlen. apply wildcards_le.
Qed.

Lemma literal_match (ms rs : list string) :
  wildcards ms = 0 → Forall2 segAccepts ms rs →
  ms = rs ∧ captured ms rs = [].
Proof.
  intros Hw HF. induction HF as [|m r ms rs Hh _ IH]; [done|].
  unfold wildcards in *. rewrite filter_cons in Hw. simpl.
  unfold segAccepts in Hh.
  destruct (decide (m = wildcard)); [done|].
  destruct (IH Hw) as [-> ->]. by subst.
Qed.

Lemma literal_accepts (rs : list string) :
  wildcard ∉ rs → Forall2 segAccepts rs rs ∧ wildcards rs = 0.
Proof.
  induction rs as [|r rs IH]; intros Hno; [by split; [constructor|]|].
  apply not_elem_of_cons in Hno as [Hr Hrs]. destruct (IH Hrs) as [HF Hw].
  unfold wildcards in *. rewrite filter_cons.
  rewrite decide_False by done. split; [|done].
  constructor; [|done]. unfold segAccepts. by rewrite decide_False.
Qed.

(** X4.  A file met by the scan, that is before any traversal error,
    whose route template is the request path itself, segment by segment
    and without wildcard, wins: wherever it stands among the scanned
    files, the file returned has that literal template and no parameter is
    captured.  (A file that the scan does not reach cannot win.) *)
Theorem exact_file_wins (fs : FS) (baseDir requestPath p : string) :
  p ∈ scanned fs baseDir →
  str.HasSuffix p ".json" = true →
  mockPartsOf baseDir p = str.Split requestPath "/" →
  wildcard ∉ str.Split requestPath "/" →
  let best := (findBestMockFile fs baseDir requestPath).1.1 in
  best ≠ EmptyString
  ∧ mockPartsOf baseDir best = str.Split requestPath "/"
  ∧ (findBestMockFile fs baseDir requestPath).1.2 = [].
Proof.
  intros Hp Hsuf Htmpl Hlit best. subst best.
  set (r := str.Split requestPath "/") in *.
  destruct (literal_accepts r Hlit) as [HF Hw].
  assert (candidate baseDir r p = Some ([], Z.of_nat (length r))) as Hcp.
  { unfold candidate. rewrite Hsuf, Htmpl, (matchParts_complete _ _ HF), Hw.
    destruct (literal_match r r Hw HF) as [_ ->]. do 2 f_equal. lia. }
  destruct (findBest_cases fs baseDir requestPath)
    as [[_ Hnone]|(i & sc & Hi & Hc & Hall)].
  { fold r in Hnone. by rewrite (Hnone p Hp) in Hcp. }
  fold r in Hc, Hall.
  apply list_elem_of_lookup_1 in Hp as [j Hj].
  destruct (Hall j p _ _ Hj Hcp) as [Hle _].
  pose proof (candidate_suffix _ _ _ _ _ Hc) as Hs.
  unfold candidate in Hc. rewrite Hs in Hc.
  destruct (matchParts _ r) as [[ps n]|] eqn:E; [|done].
  injection Hc as Hps Hsc.
  apply matchParts_inv in E as (Hlen & HF' & -> & ->).
  assert (wildcards
            (mockPartsOf baseDir (findBestMockFile fs baseDir requestPath).1.1)
          = 0) as Hw' by lia.
  destruct (literal_match _ _ Hw' HF') as [Heq Hcap].
  split_and!; [|done|by rewrite <- Hps].
  intros Hempty. by rewrite Hempty in Hs.
Qed.

Lemma exact_file_wins_witness :
  (findBestMockFile usersStore "mock" "users/created").1.1 ≠ EmptyString
  ∧ mockPartsOf "mock" (findBestMockFile usersStore "mock" "users/created").1.1
    = str.Split "users/created" "/"
  ∧ (findBestMockFile usersStore "mock" "users/created").1.2 = [].
Proof.
  apply (exact_file_wins usersStore "mock" "users/created"
           "mock/users/created.json").
  - vm_compute. do 2 right. by left.
  - reflexivity.
  - reflexivity.
  - vm_compute. intros H.
    repeat (apply elem_of_cons in H as [H|H]; [discriminate H|]).
    by apply elem_of_nil in H.
Defined.

(** X5.  The specificity of the selected template does not depend on the
    order of the traversal: two scans that meet the same files, in any
    order, both find a file or both find none, and the templates they
    select have the same score.  Only the choice among templates of equal
    score follows the order. *)
Theorem score_order_independent (fs fs' : FS) (baseDir requestPath : string) :
  scanned fs baseDir ≡ₚ scanned fs' baseDir →
  let best := (findBestMockFile fs baseDir requestPath).1.1 in
  let best' := (findBestMockFile fs' baseDir requestPath).1.1 in
  (best = EmptyString ↔ best' = EmptyString)
  ∧ specificity (mockPartsOf baseDir best)
    = specificity (mockPartsOf baseDir best').
Proof.
  intros Hperm best best'. subst best best'.
  set (r := str.Split requestPath "/").
  destruct (findBest_cases fs baseDir requestPath)
    as [[Heq Hnone]|(i & sc & Hi & Hc & Hall)];
  destruct (findBest_cases fs' baseDir requestPath)
    as [[Heq' Hnone']|(i' & sc' & Hi' & Hc' & Hall')];
    repeat match goal with
           | H : context [str.Split requestPath "/"] |- _ => progress fold r in H
           end.
  - by rewrite Heq, Heq'.
  - apply list_elem_of_lookup_2 in Hi'. rewrite <- Hperm in Hi'.
    by rewrite (Hnone _ Hi') in Hc'.
  - apply list_elem_of_lookup_2 in Hi. rewrite Hperm in Hi.
    by rewrite (Hnone' _ Hi) in Hc.
  - pose proof (candidate_suffix _ _ _ _ _ Hc) as Hs.
    pose proof (candidate_suffix _ _ _ _ _ Hc') as Hs'.
    split.
    + split; intros Hempty.
      * by rewrite Hempty in Hs.
      * by rewrite Hempty in Hs'.
    + pose proof Hi as Hin. pose proof Hi' as Hin'.
      apply list_elem_of_lookup_2 in Hin, Hin'.
      rewrite Hperm in Hin. rewrite <- Hperm in Hin'.
      apply list_elem_of_lookup_1 in Hin as [j Hj], Hin' as [j' Hj'].
      destruct (Hall' _ _ _ _ Hj Hc) as [Hle _].
      destruct (Hall _ _ _ _ Hj' Hc') as [Hle' _].
      apply candidate_spec in Hc as [_ Hsc], Hc' as [_ Hsc']. lia.
Qed.

Lemma score_order_independent_witness :
  ((findBestMockFile tieStore "mock" "a/b").1.1 = EmptyString
   ↔ (findBestMockFile tieStoreSwapped "mock" "a/b").1.1 = EmptyString)
  ∧ specificity (mockPartsOf "mock" (findBestMockFile tieStore "mock" "a/b").1.1)
    = specificity
        (mockPartsOf "mock"
           (findBestMockFile tieStoreSwapped "mock" "a/b").1.1).
Proof.
  apply (score_order_independent tieStore tieStoreSwapped "mock" "a/b").
  vm_compute. apply perm_swap.
Defined.

(** ** The handler *)

Lemma statusWrites_app (a b : list Event) :
  statusWrites (a ++ b) = statusWrites a + statusWrites b.
Proof. induction a as [|[] a IH]; simpl; lia. Qed.

Lemma statusWrites_silent (pre : list Event) :
  Forall silent pre → statusWrites pre = 0.
Proof. induction 1 as [|[] ? []]; simpl; done. Qed.

Lemma statusWrites_serveMock pathParams r mock :
  statusWrites (serveMock pathParams r mock) = 1.
Proof.
  rewrite serveMock_cases. case_bool_decide; [|done].
  rewrite !statusWrites_app.
  rewrite (statusWrites_silent _ (silent_delay mock)).
  rewrite (statusWrites_silent _ (silent_headers pathParams mock)).
  unfold statusAndBody. by case_bool_decide.
Qed.

(** X6.  The root path is answered with the fixed liveness text for every
    method, and an [OPTIONS] request on any other path with the CORS
    headers and status 200 without body; neither looks at the Mock Store
    nor touches the path parameters in [currentPathParams]. *)
Theorem special_paths (world : World) (configDir : string)
    (current : list string) (r : Request) :
  (URLPath r = "/" →
     mockHandler world configDir current r
     = ([SetHeader "Content-Type" "text/plain; charset=utf-8";
         WriteBody "apimock server is running!"], current))
  ∧ (URLPath r ≠ "/" → ReqMethod r = "OPTIONS" →
       mockHandler world configDir current r
       = (corsHeaders ++ [WriteHeader 200], current)).
Proof.
  unfold mockHandler. split.
  - intros ->. done.
  - intros Hroot ->.
    by destruct (String.eqb_spec (URLPath r) "/").
Qed.

(** X7.  Every request but the one for the root path is answered with the
    three CORS headers first and with exactly one call of [WriteHeader]:
    on no path through the handler is a status written twice or not at
    all. *)
Theorem one_status_after_cors (world : World) (configDir : string)
    (current : list string) (r : Request) :
  URLPath r ≠ "/" →
  let events := (mockHandler world configDir current r).1 in
  corsHeaders `prefix_of` events ∧ statusWrites events = 1.
Proof.
  intros Hroot events. subst events. unfold mockHandler.
  destruct (String.eqb_spec (URLPath r) "/"); [done|].
  destruct (String.eqb (ReqMethod r) "OPTIONS").
  { split; [by eexists|done]. }
  destruct (findBestMockFile _ _ _) as [[filePath pathParams] logged].
  cbn [fst]. split; [by eexists|].
  rewrite !statusWrites_app.
  rewrite (statusWrites_silent _ silent_cors).
  rewrite (statusWrites_silent _ (silent_logs logged)).
  destruct (String.eqb filePath EmptyString); [done|].
  destruct (osOpen world filePath) as [msg|data readErr]; [done|].
  destruct (json.Unmarshal data) as [mock|]; [|done].
  by rewrite statusWrites_serveMock.
Qed.

Lemma one_status_after_cors_witness :
  corsHeaders
    `prefix_of` (mockHandler (oneFileWorld (OpenError "gone")) "mock" []
                   getUser).1
  ∧ statusWrites
      (mockHandler (oneFileWorld (OpenError "gone")) "mock" [] getUser).1 = 1.
Proof.
  apply (one_status_after_cors (oneFileWorld (OpenError "gone")) "mock" []
           getUser).
  discriminate.
Defined.

(** X8.  When no file of the scan is a candidate for the request, the
    answer is status 404 with the error body [Not Found], after the CORS
    headers and what the scan logged; no file is opened (the answer is the
    same however the files open) and [currentPathParams] is left empty. *)
Theorem not_found (world : World) (configDir : string)
    (current : list string) (r : Request) :
  URLPath r ≠ "/" → ReqMethod r ≠ "OPTIONS" →
  (∀ p ps, p ∈ scanned (store world) configDir →
     ¬ isCandidate configDir
         (str.Split (str.TrimPrefix (URLPath r) "/") "/") p ps) →
  ∀ osOpen',
    mockHandler (mkWorld (store world) osOpen') configDir current r
    = (corsHeaders
       ++ map LogPrintf
            (findBestMockFile (store world) configDir
               (str.TrimPrefix (URLPath r) "/")).2
       ++ respondJSON 404 [("error", "Not Found")],
       []).
Proof.
  intros Hroot Hopt Hnone osOpen'. unfold mockHandler. cbn [store].
  destruct (String.eqb_spec (URLPath r) "/"); [done|].
  destruct (String.eqb_spec (ReqMethod r) "OPTIONS"); [done|].
  destruct (findBest_cases (store world) configDir
              (str.TrimPrefix (URLPath r) "/"))
    as [[Heq _]|(i & sc & Hi & Hc & _)].
  - destruct (findBestMockFile _ _ _) as [[filePath pathParams] logged].
    simpl in Heq. by injection Heq as -> ->.
  - exfalso. apply candidate_spec in Hc as [Hcand _].
    eapply Hnone; [|exact Hcand]. by eapply list_elem_of_lookup_2.
Qed.

Lemma not_found_witness :
  mockHandler (mkWorld (store (oneFileWorld (OpenError "gone")))
                 (λ _, Opened "{}" None))
    "mock" ["stale"] (mkRequest "/users/" "GET")
  = (corsHeaders ++ respondJSON 404 [("error", "Not Found")], []).
Proof.
  apply (not_found (oneFileWorld (OpenError "gone")) "mock" ["stale"]
           (mkRequest "/users/" "GET")).
  - discriminate.
  - discriminate.
  - intros p ps Hp [_ Hm]. vm_compute in Hp.
    apply list_elem_of_singleton in Hp as ->. vm_compute in Hm. discriminate.
Defined.



Lemma mockHandler_current (world : World) (configDir : string)
    (current current' : list string) (r : Request) :
  (mockHandler world configDir current r).1
  = (mockHandler world configDir current' r).1.
Proof.
  unfold mockHandler.
  destruct (String.eqb (URLPath r) "/"); [done|].
  destruct (String.eqb (ReqMethod r) "OPTIONS"); [done|].
  by destruct (findBestMockFile _ _ _) as [[filePath pathParams] logged].
Qed.

(** X10.  When the calls of the handler do not overlap, a request is
    answered as if it were the only one: in a run of requests handled in
    turn, the events of each are those of the handler started on it with
    an empty [currentPathParams], whatever the earlier requests left in
    the variable.  A request for [/] or with the method [OPTIONS] leaves
    the variable untouched; any other request leaves in it the parameters
    captured for that request.  (Nothing is stated about calls that
    overlap, which race on the variable.) *)
Theorem previous_params_ignored (world : World) (configDir : string)
    (current : list string) (requests : list Request) (r : Request) :
  (serveInTurn world configDir current requests).1
  = map (λ r, (mockHandler world configDir [] r).1) requests
  ∧ (mockHandler world configDir current r).2
    = if String.eqb (URLPath r) "/" || String.eqb (ReqMethod r) "OPTIONS"
      then current
      else (findBestMockFile (store world) configDir
              (str.TrimPrefix (URLPath r) "/")).1.2.
Proof.
  split.
  - revert current.
    induction requests as [|r1 requests IH]; intros current; [done|].
    cbn [serveInTurn map].
    pose proof (mockHandler_current world configDir current [] r1) as Hev.
    destruct (mockHandler world configDir current r1) as [events current1].
    specialize (IH current1).
    destruct (serveInTurn world configDir current1 requests)
      as [rest current2].
    simpl in *. by rewrite Hev, IH.
  - unfold mockHandler.
    destruct (String.eqb (URLPath r) "/"); [done|].
    destruct (String.eqb (ReqMethod r) "OPTIONS"); [done|].
    by destruct (findBestMockFile _ _ _) as [[filePath pathParams] logged].
Qed.

Lemma wrap64_small (z : Z) :
  (- 2 ^ 63 ≤ z < 2 ^ 63)%Z → wrap64 z = z.
Proof. intros Hz. unfold wrap64. rewrite Z.mod_small; lia. Qed.

(** X11.  A descriptor with a delay of [d] milliseconds, [d] positive and
    at most 9223372036854 (beyond which the duration overflows an
    [int64]), makes the handler sleep once, for exactly [d] milliseconds,
    after the method check and before it sets any header of the descriptor
    or writes the status. *)
Theorem positive_delay world configDir current r filePath pathParams
    logged data readErr mock :
  reaches world configDir r filePath pathParams logged data readErr →
  json.Unmarshal data = Some mock →
  methodAllowed r mock →
  (0 < Delay mock ≤ 9223372036854)%Z →
  (mockHandler world configDir current r).1
  = corsHeaders ++ map LogPrintf logged
    ++ [Sleep (Delay mock * Millisecond)]
    ++ headerEvents pathParams mock
    ++ statusAndBody pathParams mock.
Proof.
  intros Hr Hparse Hok [Hpos Hmax].
  erewrite mockHandler_reaches by done. rewrite Hparse. cbn [fst].
  rewrite serveMock_cases, bool_decide_eq_true_2 by done.
  destruct (Z.ltb_spec 0 (Delay mock)) as [_|?]; [|lia].
  unfold Millisecond in *.
  rewrite (wrap64_small (Delay mock)) by lia.
  by rewrite wrap64_small by lia.
Qed.

Lemma positive_delay_witness :
  (mockHandler (oneFileWorld (Opened (qq "{'delay': 1500}") None)) "mock" []
     getUser).1
  = corsHeaders ++ [Sleep 1500000000; WriteHeader 204].
Proof.
  refine (positive_delay (oneFileWorld (Opened (qq "{'delay': 1500}") None))
            "mock" [] getUser "mock/user.json" [] []
            (qq "{'delay': 1500}") None (mkMock [] 0 1500 ∅ EmptyString)
            _ _ _ _).
  - by repeat split.
  - by vm_compute.
  - by left.
  - by vm_compute.
Defined.

(** X12.  A matched file whose bytes [json.Unmarshal] refuses (bytes that
    are no JSON, a JSON array, string, number or boolean, an object with a
    field of the wrong type) is answered with status 200, content type
    [application/json] and the bytes of the file as they are, whatever the
    method of the request: no method check, no sleep, no expansion. *)
Theorem raw_fallback world configDir current r filePath pathParams
    logged data readErr :
  reaches world configDir r filePath pathParams logged data readErr →
  (json.Unmarshal data = None
   ∨ ∃ v, json.parse data = Some v
          ∧ (∀ members, v ≠ json.Object members) ∧ v ≠ json.Null) →
  let events := (mockHandler world configDir current r).1 in
  events = corsHeaders ++ map LogPrintf logged
           ++ [SetHeader "Content-Type" "application/json";
               WriteHeader 200;
               WriteBody data]
  ∧ bodyOf events = data
  ∧ noSleep events.
Proof.
  intros Hr Hdata events.
  assert (json.Unmarshal data = None) as Hparse.
  { destruct Hdata as [?|(v & Hp & Hobj & Hnull)]; [done|].
    by eapply not_object_unparsable. }
  subst events. erewrite unparsable_served_raw by done.
  split_and!; [done| |].
  - rewrite !bodyOf_silent by auto using silent_cors, silent_logs.
    simpl. apply app_empty_r.
  - repeat apply noSleep_app; auto using noSleep_cors.
    + by apply noSleep_map.
    + intros e He d ->. unfold rawResponse in He.
      repeat (apply elem_of_cons in He as [He|He]; [done|]).
      by apply elem_of_nil in He.
Qed.

Lemma raw_fallback_witness :
  let data := qq "[{'id': 1, 'name': 'Simple Taro'}]" in
  let events :=
    (mockHandler (oneFileWorld (Opened data None)) "mock" []
       (mkRequest "/user" "DELETE")).1 in
  events = corsHeaders
           ++ [SetHeader "Content-Type" "application/json";
               WriteHeader 200;
               WriteBody data]
  ∧ bodyOf events = data
  ∧ noSleep events.
Proof.
  intros data.
  refine (raw_fallback (oneFileWorld (Opened data None)) "mock" []
            (mkRequest "/user" "DELETE") "mock/user.json" [] [] data None
            _ _).
  - by repeat split.
  - right. eexists. split; [by vm_compute|]. by split.
Defined.

Lemma headerOf_silent (key v : string) (pre rest : list Event) (code : Z) :
  Forall silent pre → ∀ current,
  headerOf key (pre ++ SetHeader key v :: WriteHeader code :: rest) current
  = Some v.
Proof.
  induction 1 as [|e pre He _ IH]; intros current.
  - simpl. by rewrite String.eqb_refl.
  - destruct e; try done; simpl; apply IH.
Qed.

(** X13.  A response that carries the body of a descriptor always has the
    content type [application/json; charset=utf-8]: the handler sets it
    after the headers of the descriptor, so a [Content-Type] among those
    headers does not survive. *)
Theorem body_content_type world configDir current r filePath pathParams
    logged data readErr mock :
  reaches world configDir r filePath pathParams logged data readErr →
  json.Unmarshal data = Some mock →
  methodAllowed r mock →
  ¬ bodyEmpty mock →
  headerOf "Content-Type" (mockHandler world configDir current r).1 None
  = Some "application/json; charset=utf-8".
Proof.
  intros Hr Hparse Hok Hbody.
  erewrite mockHandler_reaches by done. rewrite Hparse. cbn [fst].
  rewrite serveMock_cases, bool_decide_eq_true_2 by done.
  unfold statusAndBody. rewrite bool_decide_eq_false_2 by done.
  rewrite !app_assoc. apply headerOf_silent.
  repeat apply Forall_app_2;
    auto using silent_cors, silent_logs, silent_delay, silent_headers.
Qed.

Lemma body_content_type_witness :
  headerOf "Content-Type"
    (mockHandler
       (oneFileWorld
          (Opened (qq "{'headers': {'Content-Type': 'text/csv'}, 'body': 1}")
             None))
       "mock" [] getUser).1 None
  = Some "application/json; charset=utf-8".
Proof.
  refine (body_content_type
            (oneFileWorld
               (Opened
                  (qq "{'headers': {'Content-Type': 'text/csv'}, 'body': 1}")
                  None))
            "mock" [] getUser "mock/user.json" [] []
            (qq "{'headers': {'Content-Type': 'text/csv'}, 'body': 1}") None
            (mkMock [] 0 0 {["Content-Type" := "text/csv"]} "1") _ _ _ _).
  - by repeat split.
  - by vm_compute.
  - by left.
  - by intros [?|?].
Defined.

(** ** The Template Expander *)

Lemma replacePathParams_pieces (pathParams : list string) (t0 : string)
    (l : list (string * string)) :
  (Z.of_nat (length pathParams) ≤ strconv.maxInt)%Z →
  tokenFree t0 →
  Forall (λ p, isLiteral p.1 ∧ tokenFree p.2) l →
  replacePathParams pathParams (pieces token t0 l)
  = pieces (expandToken pathParams) t0 l.
Proof.
  intros Hlen Ht0 Hl.
  unfold replacePathParams, regexp.ReplaceAllStringFunc, pieces.
  rewrite replaceFrom_text.
  - f_equal. rewrite replaceFrom_pieces by done. f_equal.
    apply map_ext_Forall. eapply Forall_impl; [exact Hl|].
    intros [g t] [Hg _]. simpl. f_equal. by apply closure_token.
  - by apply tokenFree_hasToken.
  - apply pieces_boundary. intros g. by eexists.
Qed.

(** X14.  Without captured parameters the Template Expander changes
    nothing: every text, whatever tokens it holds, comes back as it is.  A
    mock reached through a template without wildcard is therefore served
    with its headers and its body as the file has them. *)
Theorem replacePathParams_no_params (s : string) :
  replacePathParams [] s = s.
Proof.
  destruct (pieces_exist s) as (t0 & l & Ht0 & Hl & ->).
  rewrite replacePathParams_pieces by done.
  done.
Qed.

(** X15.  The Template Expander is the identity on a text without valid
    token, whatever the parameters; in particular a malformed token such
    as [{path.x}] or [{path.}] is never touched. *)
Theorem replacePathParams_token_free (pathParams : list string) (t : string) :
  tokenFree t → replacePathParams pathParams t = t.
Proof.
  intros Ht. unfold replacePathParams, regexp.ReplaceAllStringFunc.
  rewrite <- (app_empty_r t) at 1.
  rewrite replaceFrom_text; [apply app_empty_r| |by left].
  by apply tokenFree_hasToken.
Qed.

Lemma replacePathParams_token_free_witness :
  replacePathParams ["42"] "{path.x} {path.} {path.-1} {path.1"
  = "{path.x} {path.} {path.-1} {path.1".
Proof.
  apply (replacePathParams_token_free ["42"]).
  by apply tokenFree_hasToken.
Defined.

(** ** The configuration *)

Lemma loadConfigFromPath_set (env : Env) (st : Settings) (path : string) :
  (loadConfigFromPath env st path).1
  = mkSettings (default (configDir st) (dirSetBy env path))
               (default (configPort st) (portSetBy env path)).
Proof.
  unfold loadConfigFromPath, dirSetBy, portSetBy, fileConfig.
  destruct st as [dir port].
  destruct (ReadFile env path) as [data|]; [|done]. simpl.
  destruct (json.UnmarshalConfig data) as [cfg|]; [|done]. simpl.
  f_equal.
  - destruct (decide (cfgDir cfg = EmptyString)) as [->|Hne].
    + by rewrite decide_False by (by intros ?).
    + rewrite decide_True by done. by destruct (str.HasPrefix _ _).
  - by destruct (cfgPort cfg).
Qed.

(** X16.  The settings are resolved field by field: the directory is the
    value of the flag [--dir] if not empty, else the [dir] of
    [.apimockrc] in the working directory, else the [dir] of
    [$HOME/.apimockrc], else [mock]; the port likewise from [--port], the
    two files and [8080].  A file that is missing or refused by the JSON
    decoder sets nothing, an empty [dir] sets nothing, but an empty string
    as [port] does set the port. *)
Theorem config_precedence (env : Env) (mockDir port : string) :
  (initConfig env mockDir port).1
  = mkSettings
      (firstSet [flagSet mockDir;
                 dirSetBy env ".apimockrc";
                 dirSetBy env (HOME env +:+ "/.apimockrc")] "mock")
      (firstSet [flagSet port;
                 portSetBy env ".apimockrc";
                 portSetBy env (HOME env +:+ "/.apimockrc")] "8080").
Proof.
  unfold initConfig.
  pose proof (loadConfigFromPath_set env (mkSettings "mock" "8080")
                (HOME env +:+ "/.apimockrc")) as H1.
  destruct (loadConfigFromPath env _ (HOME env +:+ _)) as [st1 log1].
  pose proof (loadConfigFromPath_set env st1 ".apimockrc") as H2.
  destruct (loadConfigFromPath env st1 _) as [st2 log2].
  simpl in H1, H2. subst st1 st2. unfold flagSet. cbn [fst firstSet].
  destruct (dirSetBy env ".apimockrc"), (portSetBy env ".apimockrc"),
    (dirSetBy env (HOME env +:+ "/.apimockrc")),
    (portSetBy env (HOME env +:+ "/.apimockrc"));
    repeat case_decide; by simplify_eq.
Qed.

(** X17.  Loading a configuration file a second time changes nothing:
    the settings after two loads of the same path are those after one,
    and the same is logged. *)
Theorem reload_idempotent (env : Env) (st : Settings) (path : string) :
  loadConfigFromPath env (loadConfigFromPath env st path).1 path
  = loadConfigFromPath env st path.
Proof.
  unfold loadConfigFromPath.
  destruct (ReadFile env path) as [data|] eqn:Hread; simpl;
    rewrite ?Hread; [|done].
  destruct (json.UnmarshalConfig data) as [cfg|] eqn:Hcfg; simpl;
    rewrite ?Hread, ?Hcfg; [|done].
  f_equal. f_equal.
  - by destruct (decide _).
  - by destruct (cfgPort cfg).
Qed.

(** *** A port written as a number *)

Lemma log2_div10 (u : Z) : (10 ≤ u → Z.log2 (u / 10) < Z.log2 u)%Z.
Proof.
  intros Hu. apply Z.log2_lt_pow2.
  - apply Z.div_str_pos. lia.
  - pose proof (Z.log2_spec u ltac:(lia)) as [_ Hlt].
    rewrite Z.pow_succ_r in Hlt by apply Z.log2_nonneg.
    apply Z.div_lt_upper_bound; lia.
Qed.

Lemma formatBits_fuel (f1 : nat) : ∀ (f2 : nat) (u : Z) (acc : string),
  (0 ≤ u)%Z → (Z.log2 u < Z.of_nat f1)%Z → (Z.log2 u < Z.of_nat f2)%Z →
  strconv.formatBits f1 u acc = strconv.formatBits f2 u acc.
Proof.
  induction f1 as [|f1 IH]; intros f2 u acc Hu H1 H2.
  { pose proof (Z.log2_nonneg u). lia. }
  destruct f2 as [|f2]; [pose proof (Z.log2_nonneg u); lia|].
  simpl. destruct (Z.ltb_spec u 10) as [|Hge]; [done|].
  pose proof (log2_div10 u Hge).
  apply IH; [apply Z.div_pos; lia|lia|lia].
Qed.

Lemma formatBits_digit (f : nat) (d : Z) (acc : string) :
  (0 ≤ d ≤ 9)%Z →
  strconv.formatBits (S f) d acc = String (strconv.digitChar d) acc.
Proof.
  intros Hd. simpl. rewrite Z.mod_small by lia.
  by destruct (Z.ltb_spec d 10); [|lia].
Qed.

Lemma formatBits_step (u d : Z) (acc : string) :
  (0 < u)%Z → (0 ≤ d ≤ 9)%Z →
  strconv.formatBits (S (Z.to_nat (Z.log2 (u * 10 + d)))) (u * 10 + d) acc
  = strconv.formatBits (S (Z.to_nat (Z.log2 u))) u
      (String (strconv.digitChar d) acc).
Proof.
  intros Hu Hd.
  set (rhs := strconv.formatBits (S (Z.to_nat (Z.log2 u))) u _).
  cbn [strconv.formatBits]. subst rhs.
  destruct (Z.ltb_spec (u * 10 + d) 10) as [|_]; [lia|].
  replace ((u * 10 + d) mod 10)%Z with d
    by (rewrite Z.add_comm, Z.mod_add, Z.mod_small; lia).
  replace ((u * 10 + d) / 10)%Z with u
    by (rewrite Z.add_comm, Z.div_add, Z.div_small; lia).
  pose proof (Z.log2_nonneg u).
  pose proof (log2_div10 (u * 10 + d) ltac:(lia)) as Hlog.
  replace ((u * 10 + d) / 10)%Z with u in Hlog
    by (rewrite Z.add_comm, Z.div_add, Z.div_small; lia).
  apply formatBits_fuel; lia.
Qed.

Lemma digitChar_digitVal (c : ascii) :
  strconv.isDigit c = true → strconv.digitChar (strconv.digitVal c) = c.
Proof.
  intros Hc. unfold strconv.digitChar, strconv.digitVal.
  replace (48 + (Z.of_nat (nat_of_ascii c) - 48))%Z
    with (Z.of_nat (nat_of_ascii c)) by lia.
  by rewrite Nat2Z.id, ascii_nat_embedding.
Qed.

Lemma formatBits_fold (g : string) : ∀ (u : Z) (acc : string),
  Forall (λ c, strconv.isDigit c = true) (list_ascii_of_string g) →
  (0 < u)%Z →
  strconv.formatBits
    (S (Z.to_nat (Z.log2 (fold_left
                            (λ acc c, (acc * 10 + strconv.digitVal c)%Z)
                            (list_ascii_of_string g) u))))
    (fold_left (λ acc c, (acc * 10 + strconv.digitVal c)%Z)
       (list_ascii_of_string g) u) acc
  = strconv.formatBits (S (Z.to_nat (Z.log2 u))) u (g +:+ acc).
Proof.
  induction g as [|c g IH]; intros u acc Hall Hu; [done|].
  cbn [list_ascii_of_string fold_left] in *.
  inversion Hall as [|?? Hc Hg]; subst.
  pose proof (digitVal_range c Hc).
  rewrite IH by (done || lia).
  rewrite formatBits_step by done.
  by rewrite digitChar_digitVal, app_cons.
Qed.

Lemma fold_digits_pos l : ∀ acc,
  Forall (λ c, strconv.isDigit c = true) l → (0 < acc)%Z →
  (0 < fold_left (λ acc c, (acc * 10 + strconv.digitVal c)%Z) l acc)%Z.
Proof.
  induction l as [|c l IH]; intros acc Hall Hacc; simpl; [done|].
  inversion Hall as [|?? Hc Hl]; subst. apply IH; [done|].
  pose proof (digitVal_range c Hc). lia.
Qed.

Lemma Itoa_decimal (lit : string) :
  plainNumber lit → strconv.Itoa (decimal lit) = lit.
Proof.
  intros [[Hne Hd] Hzero]. pose proof (digits_all lit Hd) as Hall.
  destruct Hzero as [->|Hzero]; [done|].
  destruct lit as [|c g]; [done|]. clear Hne Hd.
  cbn [list_ascii_of_string] in Hall.
  inversion Hall as [|?? Hc Hg]; subst.
  pose proof (digitVal_range c Hc) as Hrange.
  assert (strconv.digitVal c ≠ 0)%Z as Hc0.
  { intros H0. apply (Hzero g). f_equal.
    rewrite <- (digitChar_digitVal c Hc). by rewrite H0. }
  unfold strconv.Itoa, decimal. cbn [list_ascii_of_string fold_left].
  change (0 * 10 + strconv.digitVal c)%Z with (strconv.digitVal c).
  pose proof (fold_digits_pos (list_ascii_of_string g)
                (strconv.digitVal c) Hg ltac:(lia)) as Hn.
  rewrite Z.abs_eq by lia.
  destruct (Z.ltb_spec
              (fold_left (λ acc c, (acc * 10 + strconv.digitVal c)%Z)
                 (list_ascii_of_string g) (strconv.digitVal c)) 0)
    as [|_]; [lia|].
  rewrite formatBits_fold by (done || lia).
  rewrite formatBits_digit by lia.
  by rewrite digitChar_digitVal, app_empty_r.
Qed.

Lemma roundEven_1 (n : Z) : json.roundEven n 1 = n.
Proof.
  unfold json.roundEven. rewrite Z.mod_1_r, Z.div_1_r. done.
Qed.

Lemma nearest_exact (n : Z) :
  (0 < n < 2 ^ 53)%Z →
  json.nearest n 1
  = Some ((n * 2 ^ (52 - Z.log2 n))%Z, (Z.log2 n - 52)%Z).
Proof.
  intros [Hpos Hlt].
  pose proof (Z.log2_nonneg n) as Hg0.
  assert (Z.log2 n < 53)%Z as Hg by (by apply Z.log2_lt_pow2).
  pose proof (Z.log2_spec n Hpos) as [Hlow _].
  unfold json.nearest, json.floorLog2.
  change (Z.log2 1) with 0%Z. rewrite Z.sub_0_r.
  destruct (Z.leb_spec 0 (Z.log2 n)) as [_|]; [|lia].
  rewrite Z.mul_1_l.
  destruct (Z.leb_spec (2 ^ Z.log2 n) n) as [_|]; [|lia].
  rewrite Z.max_l by lia.
  destruct (Z.ltb_spec 971 (Z.log2 n - 52)) as [|_]; [lia|].
  destruct (Z.eqb_spec (Z.log2 n - 52) 971) as [|_]; [lia|].
  cbn [orb andb]. f_equal. f_equal.
  destruct (Z.leb_spec 0 (Z.log2 n - 52)) as [Hge|Hneg].
  - replace (Z.log2 n) with 52%Z by lia. simpl.
    change (1 * 2 ^ 0)%Z with 1%Z. rewrite roundEven_1. lia.
  - rewrite roundEven_1. f_equal. f_equal. lia.
Qed.

Lemma int_exact (overflow : float64 → Z) (n : Z) :
  (0 < n < 2 ^ 53)%Z →
  int overflow
    (mkFloat64 false (n * 2 ^ (52 - Z.log2 n)) (Z.log2 n - 52)) = n.
Proof.
  intros [Hpos Hlt].
  pose proof (Z.log2_nonneg n) as Hg0.
  assert (Z.log2 n < 53)%Z as Hg by (by apply Z.log2_lt_pow2).
  unfold int. cbn [mant expo negative].
  assert ((if (0 <=? Z.log2 n - 52)%Z
           then (n * 2 ^ (52 - Z.log2 n) * 2 ^ (Z.log2 n - 52))%Z
           else (n * 2 ^ (52 - Z.log2 n) / 2 ^ (- (Z.log2 n - 52)))%Z) = n)
    as ->.
  { destruct (Z.leb_spec 0 (Z.log2 n - 52)) as [Hge|Hneg].
    - replace (Z.log2 n) with 52%Z by lia. simpl. lia.
    - replace (- (Z.log2 n - 52))%Z with (52 - Z.log2 n)%Z by lia.
      apply Z.div_mul. apply Z.pow_nonzero; lia. }
  destruct (Z.leb_spec (- 2 ^ 63) n) as [_|]; [|lia].
  destruct (Z.ltb_spec n (2 ^ 63)) as [_|]; [done|lia].
Qed.

Lemma convertNumber_plain (overflow : float64 → Z) (lit : string) :
  isLiteral lit → (decimal lit < 2 ^ 53)%Z →
  ∃ v, json.convertNumber lit = Some v ∧ int overflow v = decimal lit.
Proof.
  intros [Hne Hd] Hlt. pose proof (digits_all lit Hd) as Hall.
  pose proof (decimal_nonneg lit (conj Hne Hd)) as Hnn.
  unfold json.convertNumber.
  assert (match lit with
          | String "-" r => (true, r)
          | _ => (false, lit)
          end = (false, lit)) as ->.
  { destruct lit as [|c g]; [done|].
    simpl in Hall. inversion Hall as [|?? Hc _]; subst.
    by destruct c as [[] [] [] [] [] [] [] []]. }
  rewrite Hd, app_empty_r, parseDigits_fold by done.
  fold (decimal lit). simpl String.length. rewrite Z.sub_0_r.
  destruct (Z.eqb_spec (decimal lit) 0) as [H0|Hn0].
  - eexists. split; [done|]. by rewrite H0.
  - change (0 <=? 0)%Z with true. cbn [Z.pow]. rewrite Z.mul_1_r.
    rewrite nearest_exact by lia.
    eexists. split; [done|]. apply (int_exact overflow). lia.
Qed.

(** X18.  A configuration file that holds only a port, written as a plain
    number below [2 ^ 53] rather than as a string, sets the port to the
    digits of that number and leaves the directory as it was: the number
    passes through [float64] and [int] without loss. *)
Theorem port_number (env : Env) (st : Settings) (path data key raw lit : string) :
  ReadFile env path = Some data →
  json.parse data = Some (json.Object [(key, raw, json.Number lit)]) →
  json.foldName key = "PORT" →
  plainNumber lit →
  (decimal lit < 2 ^ 53)%Z →
  loadConfigFromPath env st path = (mkSettings (configDir st) lit, []).
Proof.
  intros Hread Hparse Hkey Hplain Hlt.
  destruct (convertNumber_plain (intOverflow env) lit (proj1 Hplain) Hlt)
    as (v & Hv & Hint).
  unfold loadConfigFromPath, json.UnmarshalConfig. rewrite Hread, Hparse.
  cbn [json.decodeConfigFields json.decodeConfigField]. rewrite Hkey.
  rewrite decide_False by done. rewrite decide_True by done.
  cbn [json.decodeAny]. rewrite Hv. simpl.
  by rewrite Hint, Itoa_decimal.
Qed.

Lemma port_number_witness :
  loadConfigFromPath
    (envOf "/home/u" [(".apimockrc", qq "{ 'Port': 3000 }")] ["mock"])
    (mkSettings "mock" "8080") ".apimockrc"
  = (mkSettings "mock" "3000", []).
Proof.
  refine (port_number _ (mkSettings "mock" "8080") ".apimockrc"
            (qq "{ 'Port': 3000 }") "Port" "3000" "3000" _ _ _ _ _).
  - done.
  - by vm_compute.
  - done.
  - split; [by split|]. right. by intros r.
  - by vm_compute.
Defined.

(** *** A file with a value of the wrong type *)

Lemma decodeConfigFields_fail (members : list (string * string * json.Value))
    (member : string * string * json.Value) :
  member ∈ members →
  (∀ cfg, json.decodeConfigField cfg member = None) →
  ∀ cfg, json.decodeConfigFields cfg members = None.
Proof.
  intros Hin Hfail. induction members as [|m members IH]; intros cfg.
  { by apply elem_of_nil in Hin. }
  cbn [json.decodeConfigFields].
  apply elem_of_cons in Hin as [<-|Hin].
  - by rewrite Hfail.
  - destruct (json.decodeConfigField cfg m) as [cfg'|]; [|done].
    simpl. by apply IH.
Qed.

(** X19.  A configuration file in which [dir] is neither a string nor
    [null] is given up as a whole: a warning is logged and no setting
    changes, not even the port that the same file gives, wherever the
    member stands in the object. *)
Theorem ill_typed_dir (env : Env) (st : Settings) (path data : string)
    (members : list (string * string * json.Value)) (key raw : string)
    (v : json.Value) :
  ReadFile env path = Some data →
  json.parse data = Some (json.Object members) →
  (key, raw, v) ∈ members →
  json.foldName key = "DIR" →
  (∀ s, v ≠ json.Str s) →
  v ≠ json.Null →
  loadConfigFromPath env st path = (st, [ParseWarning path]).
Proof.
  intros Hread Hparse Hin Hkey Hstr Hnull.
  unfold loadConfigFromPath, json.UnmarshalConfig. rewrite Hread, Hparse.
  rewrite (decodeConfigFields_fail members (key, raw, v)); [done|done|].
  intros cfg. cbn [json.decodeConfigField]. rewrite Hkey.
  rewrite decide_True by done.
  destruct v; try done. by destruct (Hstr s).
Qed.

Lemma ill_typed_dir_witness :
  loadConfigFromPath
    (envOf "/home/u"
       [(".apimockrc", qq "{'port': '9000', 'dir': ['mocks']}")] ["mock"])
    (mkSettings "mock" "8080") ".apimockrc"
  = (mkSettings "mock" "8080", [ParseWarning ".apimockrc"]).
Proof.
  refine (ill_typed_dir _ (mkSettings "mock" "8080") ".apimockrc"
            (qq "{'port': '9000', 'dir': ['mocks']}")
            [("port", qq "'9000'", json.Str "9000");
             ("dir", qq "['mocks']", json.Array [json.Str "mocks"])]
            "dir" (qq "['mocks']") (json.Array [json.Str "mocks"])
            _ _ _ _ _ _).
  - done.
  - by vm_compute.
  - apply elem_of_cons. right. apply elem_of_cons. by left.
  - done.
  - done.
  - done.
Defined.

(** A start with both files: the home file gives the directory and a
    port, the file of the working directory another port. *)
Example scenario_config :
  initConfig
    (envOf "/home/u"
       [("/home/u/.apimockrc", qq "{'dir': '~/mocks', 'port': 9000}");
        (".apimockrc", qq "{'port': '3000'}")]
       ["/home/u/mocks"])
    EmptyString EmptyString
  = (mkSettings "/home/u/mocks" "3000", []).
Proof. by vm_compute. Qed.

(** A start without [$HOME] and with a broken file in the working
    directory: [~/] then stands for the working directory, the fraction
    of the port is dropped and the broken file is only reported. *)
Example scenario_config_unset_home :
  initConfig
    (envOf EmptyString
       [("/.apimockrc", qq "{'dir': '~/mocks', 'port': 80.9}");
        (".apimockrc", qq "{'port': ")]
       ["mocks"])
    EmptyString EmptyString
  = (mkSettings "mocks" "80", [ParseWarning ".apimockrc"]).
Proof. by vm_compute. Qed.
